(** * Forecasting: model selection and evaluation

    A shallow embedding of the two code cells of the design notebook
    [steps/01_forecasting_api/forecasting-model-selection-and-evaluation.ipynb]:
    the function [evaluate] and the method [ForecastingGridSearchCV.fit].

    The forecaster, the splitter [cv], the scoring callable and the numpy
    reducer are collaborators that the notebook only calls; they enter the
    model as an interface (a class, a record, section variables).  Python
    objects live in a store, method calls mutate the object they are invoked
    on, exceptions abort the computation and keep the store as it was when
    they were raised.  A call log records every call made on a collaborator,
    so that statements such as "fit is called once per window" can be
    expressed. *)

From stdpp Require Import base numbers list strings.

Open Scope nat_scope.

(** ** Exceptions and results *)

Inductive exn : Type :=
  | IndexError
  | ValueError
  | AttributeError
  | TypeError
  | ReferenceError
  | UserError (name : string).

Inductive result (A : Type) : Type :=
  | Ok (a : A)
  | Raise (e : exn).

Arguments Ok {A} a.
Arguments Raise {A} e.

(** Pure fallible code: the exception monad. *)
Definition rbind {A B} (r : result A) (k : A → result B) : result B :=
  match r with
  | Ok a => k a
  | Raise e => Raise e
  end.

Fixpoint rmap {A B} (f : A → result B) (l : list A) : result (list B) :=
  match l with
  | [] => Ok []
  | x :: l' => rbind (f x) (λ v, rbind (rmap f l') (λ vs, Ok (v :: vs)))
  end.

(** ** numpy arrays and pandas positional indexing *)

(** A cell of a float array obtained from [np.empty]: its content is
    whatever the memory held until it is written, which [None] stands for. *)
Abbreviation ndarray Score := (list (option Score)).

(** [np.empty(n)]: negative dimensions are refused. *)
Definition np_empty {Score} (n : Z) : result (ndarray Score) :=
  if (n <? 0)%Z then Raise ValueError else Ok (replicate (Z.to_nat n) None).

(** [a[i] = v] for an index produced by [enumerate] (never negative). *)
Definition setitem {Score} (a : ndarray Score) (i : nat) (v : Score)
  : result (ndarray Score) :=
  if i <? length a then Ok (<[i := Some v]> a) else Raise IndexError.

(** One position of [y.iloc[idx]]: negative positions count from the end,
    positions outside the series raise. *)
Definition iloc_pos {Obs} (y : list Obs) (i : Z) : result Obs :=
  let n := Z.of_nat (length y) in
  let j := if (i <? 0)%Z then (n + i)%Z else i in
  if ((0 <=? j)%Z && (j <? n)%Z)%bool
  then match y !! Z.to_nat j with
       | Some v => Ok v
       | None => Raise IndexError
       end
  else Raise IndexError.

(** [y.iloc[idx]] for an array of positions. *)
Definition iloc {Obs} (y : list Obs) (idx : list Z) : result (list Obs) :=
  rmap (iloc_pos y) idx.

(** ** Collaborators *)

(** References to forecaster objects. *)
Definition loc : Type := nat.

(** A window: the positions of the train set and of the test set. *)
Definition window : Type := list Z * list Z.

(** The splitter object [cv].  [split] is a generator in Python; the model
    takes the finite sequence of pairs it yields. *)
Record CV (Obs : Type) : Type := {
  get_n_splits : list Obs → result Z;
  split : list Obs → result (list window)
}.

Arguments get_n_splits {Obs} _ _.
Arguments split {Obs} _ _.

(** The forecaster capability: the methods the notebook calls on a
    forecaster, as functions of the object's state [F].  A method returns the
    object's state after the call together with its outcome.  [clone_m] is
    [sklearn.base.clone]: it reads the template and builds the state of a new
    object, leaving the template as it is. *)
Class Forecaster (F Obs FH Params Pred : Type) : Type := {
  fit_m : F → list Obs → FH → F * result unit;
  predict_m : F → F * result Pred;
  set_params_m : F → Params → F * result unit;
  clone_m : F → result F
}.

(** ** The computation monad

    A computation runs in a state, ends in a state and either returns a value
    or raises.  The state reached when an exception is raised is kept: what a
    Python program did before it raised stays done. *)

Definition M (St A : Type) : Type := St → St * result A.

Definition ret {St A} (a : A) : M St A := λ s, (s, Ok a).

Definition raise {St A} (e : exn) : M St A := λ s, (s, Raise e).

Definition lift {St A} (r : result A) : M St A := λ s, (s, r).

Definition bind {St A B} (m : M St A) (k : A → M St B) : M St B := λ s,
  match m s with
  | (s', Ok a) => k a s'
  | (s', Raise e) => (s', Raise e)
  end.

Notation "x <- m ;; k" := (bind m (λ x, k))
  (at level 100, m at next level, right associativity).
Notation "m ;; k" := (bind m (λ _, k))
  (at level 100, right associativity).

Section Evaluation.

Context {F Obs FH Params Pred Score : Type}.
Context `{!Forecaster F Obs FH Params Pred}.

(** The scoring callable, [scoring(y_test, y_pred)]. *)
Definition Scoring : Type := list Obs → Pred → result Score.

(** ** The call log

    One event per call on a collaborator, in the order of the calls.
    [EUpdate] stands for the [update] method of a forecaster, which neither
    function of the notebook calls. *)

Inductive event : Type :=
  | EClone (src dst : loc)
  | ESetParams (l : loc) (params : Params)
  | EFit (l : loc) (y_train : list Obs) (fh : FH)
  | EPredict (l : loc)
  | EUpdate (l : loc) (new_observations : list Obs)
  | EScore (y_test : list Obs) (y_pred : Pred).

Definition is_fit (e : event) : bool :=
  match e with EFit _ _ _ => true | _ => false end.

Definition is_update (e : event) : bool :=
  match e with EUpdate _ _ => true | _ => false end.

(** ** The store *)

Record state : Type := mkState {
  heap : list F;
  log : list event
}.

Definition emit (e : event) : M state unit := λ s,
  (mkState (heap s) (log s ++ [e]), Ok tt).

(** A method call on the object at [l]: the object is replaced by its state
    after the call, also when the method raises.  References are obtained
    from [alloc] only, so the second branch has no Python counterpart. *)
Definition invoke {R} (l : loc) (m : F → F * result R) : M state R := λ s,
  match heap s !! l with
  | Some f => let '(f', r) := m f in (mkState (<[l := f']> (heap s)) (log s), r)
  | None => (s, Raise ReferenceError)
  end.

(** A new object gets the next free location. *)
Definition alloc (f : F) : M state loc := λ s,
  (mkState (heap s ++ [f]) (log s), Ok (length (heap s))).

Definition read (l : loc) : M state F := λ s,
  match heap s !! l with
  | Some f => (s, Ok f)
  | None => (s, Raise ReferenceError)
  end.

(** ** Calls on the collaborators *)

(** [forecaster.fit(y_train, fh)] *)
Definition call_fit (forecaster : loc) (y_train : list Obs) (fh : FH)
  : M state unit :=
  emit (EFit forecaster y_train fh);;
  invoke forecaster (λ f, fit_m f y_train fh).

(** [forecaster.predict()] *)
Definition call_predict (forecaster : loc) : M state Pred :=
  emit (EPredict forecaster);;
  invoke forecaster predict_m.

(** [forecaster.set_params] with the entries of [params] as keywords *)
Definition call_set_params (forecaster : loc) (params : Params)
  : M state unit :=
  emit (ESetParams forecaster params);;
  invoke forecaster (λ f, set_params_m f params).

(** [clone(forecaster)] *)
Definition clone (forecaster : loc) : M state loc :=
  f <- read forecaster;;
  f' <- lift (clone_m f);;
  l <- alloc f';;
  emit (EClone forecaster l);;
  ret l.

(** [scoring(y_test, y_pred)]; the default [scoring=None] is not callable. *)
Definition call_scoring (scoring : option Scoring) (y_test : list Obs)
    (y_pred : Pred) : M state Score :=
  match scoring with
  | None => raise TypeError
  | Some sc => emit (EScore y_test y_pred);; lift (sc y_test y_pred)
  end.

(** ** [evaluate] *)

(** The body of the loop up to the score, for one [(train, test)] pair. *)
Definition eval_window (forecaster : loc) (y : list Obs) (fh : FH)
    (scoring : option Scoring) (w : window) : M state Score :=
  y_train <- lift (iloc y w.1);;
  y_test <- lift (iloc y w.2);;
  call_fit forecaster y_train fh;;
  y_pred <- call_predict forecaster;;
  call_scoring scoring y_test y_pred.

(** [for i, (train, test) in enumerate(cv.split(y)): ... scores[i] = ...],
    from index [i] on. *)
Fixpoint eval_loop (forecaster : loc) (y : list Obs) (fh : FH)
    (scoring : option Scoring) (i : nat) (ws : list window)
    (scores : ndarray Score) : M state (ndarray Score) :=
  match ws with
  | [] => ret scores
  | w :: ws' =>
      sc <- eval_window forecaster y fh scoring w;;
      scores' <- lift (setitem scores i sc);;
      eval_loop forecaster y fh scoring (S i) ws' scores'
  end.

(** [def evaluate(forecaster, y, fh, cv=None, strategy="refit", scoring=None)].
    The three checks of the body are comments in the notebook; [strategy] is
    not read. *)
Definition evaluate (forecaster : loc) (y : list Obs) (fh : FH)
    (cv : option (CV Obs)) (strategy : string) (scoring : option Scoring)
  : M state (ndarray Score) :=
  match cv with
  | None => raise AttributeError
  | Some cv =>
      n_splits <- lift (get_n_splits cv y);;
      scores <- lift (np_empty n_splits);;
      windows <- lift (split cv y);;
      eval_loop forecaster y fh scoring 0 windows scores
  end.

End Evaluation.

Arguments event : clear implicits.
Arguments state : clear implicits.
Arguments Scoring : clear implicits.

(** ** [ForecastingGridSearchCV] *)

Module ForecastingGridSearchCV.

Section Fit.

Context {F Obs FH Params Pred Score : Type}.
Context `{!Forecaster F Obs FH Params Pred}.

(** The reducer [np.mean], applied to a score array. *)
Variable np_mean : ndarray Score → Score.

(** The attributes [fit] reads from [self]. *)
Record t : Type := mk {
  forecaster : loc;
  param_grid : list Params;
  cv : option (CV Obs);
  strategy : string;
  scoring : option (Scoring Obs Pred Score)
}.

Abbreviation St := (state F Obs FH Params Pred).

(** The body of the loop up to the mean, for one configuration. *)
Definition eval_params (self : t) (y : list Obs) (fh : FH) (params : Params)
  : M St Score :=
  forecaster <- clone (forecaster self);;
  call_set_params forecaster params;;
  scores <- evaluate forecaster y fh (cv self) (strategy self) (scoring self);;
  ret (np_mean scores).

(** [for i, params in enumerate(self.param_grid): ... cv_results[i] = ...],
    from index [i] on. *)
Fixpoint grid_loop (self : t) (y : list Obs) (fh : FH) (i : nat)
    (grid : list Params) (cv_results : ndarray Score)
  : M St (ndarray Score) :=
  match grid with
  | [] => ret cv_results
  | params :: grid' =>
      m <- eval_params self y fh params;;
      cv_results' <- lift (setitem cv_results i m);;
      grid_loop self y fh (S i) grid' cv_results'
  end.

(** The local array [cv_results] when the loop of [fit] is over. *)
Definition fit_cv_results (self : t) (y : list Obs) (fh : FH)
  : M St (ndarray Score) :=
  cv_results <- lift (np_empty (Z.of_nat (length (param_grid self))));;
  grid_loop self y fh 0 (param_grid self) cv_results.

(** [def fit(self, y, fh=None, X=None)]: [X] is not read, "select best
    params" is a comment, [cv_results] is dropped. *)
Definition fit {XT : Type} (self : t) (y : list Obs) (fh : FH) (X : option XT)
  : M St t :=
  fit_cv_results self y fh;;
  ret self.

End Fit.

Arguments t : clear implicits.

End ForecastingGridSearchCV.

(** ** Loops that fill an array by index *)

Section Loops.

Context {St A V : Type}.

(** The outcomes of [body] on the elements of a list, in order, up to the
    first one that raises. *)
Fixpoint mapM (body : A → M St V) (xs : list A) : M St (list V) :=
  match xs with
  | [] => ret []
  | x :: xs' =>
      v <- body x;;
      vs <- mapM body xs';;
      ret (v :: vs)
  end.

(** [for i, x in enumerate(xs): arr[i] = body(x)], from index [i] on. *)
Fixpoint enum_loop (body : A → M St V) (i : nat) (xs : list A)
    (arr : ndarray V) : M St (ndarray V) :=
  match xs with
  | [] => ret arr
  | x :: xs' =>
      v <- body x;;
      arr' <- lift (setitem arr i v);;
      enum_loop body (S i) xs' arr'
  end.

(** [arr] with the cells from [i] on overwritten by [vs]. *)
Definition write_from (arr : ndarray V) (i : nat) (vs : list V) : ndarray V :=
  take i arr ++ (Some <$> vs) ++ drop (i + length vs) arr.

End Loops.

(** ** Vocabulary for the statements *)

Section Vocabulary.

Context {F Obs FH Params Pred Score : Type}.
Context `{!Forecaster F Obs FH Params Pred}.

(** The scores of the windows [ws] in order, without the array. *)
Definition eval_windows (forecaster : loc) (y : list Obs) (fh : FH)
    (scoring : option (Scoring Obs Pred Score)) (ws : list window)
  : M (state F Obs FH Params Pred) (list Score) :=
  mapM (eval_window forecaster y fh scoring) ws.

(** The calls of one iteration of [evaluate] that runs to its end. *)
Definition window_events (forecaster : loc) (y : list Obs) (fh : FH)
    (w : window) (y_pred : Pred) : list (event Obs FH Params Pred) :=
  match iloc y w.1, iloc y w.2 with
  | Ok y_train, Ok y_test =>
      [EFit forecaster y_train fh; EPredict forecaster; EScore y_test y_pred]
  | _, _ => []
  end.

(** The number of [fit] calls, and of [update] calls, in a log. *)
Definition n_fits (evs : list (event Obs FH Params Pred)) : nat :=
  length (List.filter is_fit evs).

Definition n_updates (evs : list (event Obs FH Params Pred)) : nat :=
  length (List.filter is_update evs).

(** The key of every [fit] of a grid search over the windows [ws]: the
    train positions of the window and the configuration. *)
Definition cache_keys (grid : list Params) (ws : list window)
  : list (list Z * Params) :=
  params ← grid; (λ w : window, (w.1, params)) <$> ws.

(** Two states of a forecaster from which [fit] does the same: it has the
    same outcome, and leaves the same forecaster when it returns. *)
Definition refit_equiv (f g : F) : Prop :=
  ∀ y_train fh,
    (fit_m f y_train fh).2 = (fit_m g y_train fh).2 ∧
    ((fit_m f y_train fh).2 = Ok tt →
     (fit_m f y_train fh).1 = (fit_m g y_train fh).1).

(** [fit] discards what earlier [fit] and [predict] calls left in the
    forecaster. *)
Definition fit_resets : Prop :=
  (∀ f y_train fh, refit_equiv (fit_m f y_train fh).1 f) ∧
  (∀ f, refit_equiv (predict_m f).1 f).

(** The store after a computation that touched the object at [l] only. *)
Definition touches_only (l : loc) (s s' : state F Obs FH Params Pred) : Prop :=
  length (heap s') = length (heap s) ∧
  ∀ l', l' ≠ l → heap s' !! l' = heap s !! l'.

(** The store after a computation that left the objects of [s] alone. *)
Definition preserves_old (s s' : state F Obs FH Params Pred) : Prop :=
  length (heap s) ≤ length (heap s') ∧
  ∀ l, l < length (heap s) → heap s' !! l = heap s !! l.

End Vocabulary.
(** ** The window splitter

    The notebook receives its splitter as the argument [cv] and contains
    none; the splitter of this module follows the description of the four
    strategies and serves as the [cv] of the scenarios. *)

Module WindowSplitter.

(** Modelled from the spec: the splitter behind [cv] is not part of the
    notebook.  The four strategies. *)
Inductive split_kind : Type :=
  | blocked
  | sliding
  | sliding_with_initial_window
  | expanding.

(** Modelled from the spec: the splitter behind [cv] is not part of the
    notebook.  The integer parameters of a split. *)
Record split_config : Type := mk_config {
  kind : split_kind;
  window_length : nat;
  step_length : nat;
  initial_window_length : nat;
  horizon_length : nat
}.

(** Modelled from the spec: the splitter behind [cv] is not part of the
    notebook.  Window length, step, initial window length and horizon length
    are positive integers. *)
Definition valid (c : split_config) : Prop :=
  0 < window_length c ∧ 0 < step_length c ∧
  0 < initial_window_length c ∧ 0 < horizon_length c.

(** Modelled from the spec: the splitter behind [cv] is not part of the
    notebook.  The length of the train set of the first window. *)
Definition first_train_length (c : split_config) : nat :=
  match kind c with
  | sliding_with_initial_window => initial_window_length c
  | _ => window_length c
  end.

(** Modelled from the spec: the splitter behind [cv] is not part of the
    notebook.  The distance between the train ends of two consecutive
    windows: blocks do not overlap, the other strategies move by the step. *)
Definition stride (c : split_config) : nat :=
  match kind c with
  | blocked => window_length c + horizon_length c
  | _ => step_length c
  end.

(** Modelled from the spec: the splitter behind [cv] is not part of the
    notebook.  The positions [a, a+1, ..., a+n-1]. *)
Definition positions (a n : nat) : list Z := Z.of_nat <$> seq a n.

(** Modelled from the spec: the splitter behind [cv] is not part of the
    notebook.  The window whose train set ends before position [cutoff]: the
    test set is the [horizon_length] positions from [cutoff] on; the train
    set is the whole history for [expanding] and
    [sliding_with_initial_window], and the last [window_length] positions
    otherwise. *)
Definition window_at (c : split_config) (cutoff : nat) : window :=
  let test := positions cutoff (horizon_length c) in
  match kind c with
  | expanding | sliding_with_initial_window => (positions 0 cutoff, test)
  | blocked | sliding =>
      (positions (cutoff - window_length c) (window_length c), test)
  end.

(** Modelled from the spec: the splitter behind [cv] is not part of the
    notebook.  The windows from [cutoff] on, one every [stride] positions as
    long as the test set fits in the series; there are at most
    [series_length] of them, which bounds the iteration. *)
Fixpoint windows_from (c : split_config) (series_length : nat) (fuel : nat)
    (cutoff : nat) : list window :=
  match fuel with
  | 0 => []
  | S fuel' =>
      if cutoff + horizon_length c <=? series_length
      then window_at c cutoff
             :: windows_from c series_length fuel' (cutoff + stride c)
      else []
  end.

(** Modelled from the spec: the splitter behind [cv] is not part of the
    notebook.  The error of a series too short for one window. *)
Definition InsufficientDataError : exn := UserError "InsufficientDataError".

(** Modelled from the spec: the splitter behind [cv] is not part of the
    notebook.  [generate] fails when the series cannot hold one window. *)
Definition generate (series_length : nat) (c : split_config)
  : result (list window) :=
  if series_length <? first_train_length c + horizon_length c
  then Raise InsufficientDataError
  else Ok (windows_from c series_length series_length (first_train_length c)).

(** Modelled from the spec: the splitter behind [cv] is not part of the
    notebook.  The number of windows in closed form. *)
Definition n_splits (series_length : nat) (c : split_config) : result nat :=
  if series_length <? first_train_length c + horizon_length c
  then Raise InsufficientDataError
  else Ok ((series_length - first_train_length c - horizon_length c)
             / stride c + 1).

(** Modelled from the spec: the splitter behind [cv] is not part of the
    notebook.  The splitter as the [cv] object that [evaluate] receives. *)
Definition to_cv {Obs} (c : split_config) : CV Obs := {|
  get_n_splits y := rbind (n_splits (length y) c) (λ n, Ok (Z.of_nat n));
  split y := generate (length y) c
|}.

End WindowSplitter.

(** ** Forecasters for the examples

    A mean forecaster over integer observations: it predicts the mean of the
    observations it was fitted on plus [offset]. *)

Module MeanForecaster.

Record t : Type := mk {
  offset : Z;
  seen : option (list Z)
}.

Definition NotFittedError : exn := UserError "NotFittedError".

Definition sumZ (l : list Z) : Z := foldr Z.add 0%Z l.

Definition fit (f : t) (y_train : list Z) (fh : nat) : t * result unit :=
  match y_train with
  | [] => (f, Raise ValueError)
  | _ => (mk (offset f) (Some y_train), Ok tt)
  end.

Definition predict (f : t) : t * result Z :=
  match seen f with
  | None => (f, Raise NotFittedError)
  | Some obs => (f, Ok (offset f + sumZ obs / Z.of_nat (length obs))%Z)
  end.

(** One keyword argument of [set_params]. *)
Definition set_param (f : t) (kv : string * Z) : result t :=
  if String.eqb kv.1 "offset" then Ok (mk kv.2 (seen f))
  else Raise ValueError.

Fixpoint set_params (f : t) (params : list (string * Z)) : t * result unit :=
  match params with
  | [] => (f, Ok tt)
  | kv :: params' =>
      match set_param f kv with
      | Ok f' => set_params f' params'
      | Raise e => (f, Raise e)
      end
  end.

Definition clone (f : t) : result t := Ok (mk (offset f) None).

#[global] Instance forecaster : Forecaster t Z nat (list (string * Z)) Z := {|
  fit_m := fit;
  predict_m := predict;
  set_params_m := set_params;
  clone_m := clone
|}.

(** Sum of absolute errors, as a scoring callable. *)
Definition abs_error (y_test : list Z) (y_pred : Z) : result Z :=
  Ok (sumZ ((λ v, Z.abs (v - y_pred)) <$> y_test)).

(** An integer mean, for [np.mean]; a cell never written counts as zero. *)
Definition mean (a : ndarray Z) : Z :=
  (sumZ (default 0%Z <$> a) / Z.of_nat (length a))%Z.

End MeanForecaster.

(** The same forecaster with a warm start: [fit] extends the observations
    of the earlier calls instead of replacing them. *)

Module WarmStartForecaster.

Record t : Type := mk { base : MeanForecaster.t }.

Definition fit (f : t) (y_train : list Z) (fh : nat) : t * result unit :=
  match y_train with
  | [] => (f, Raise ValueError)
  | _ =>
      let old := default [] (MeanForecaster.seen (base f)) in
      (mk (MeanForecaster.mk (MeanForecaster.offset (base f))
             (Some (old ++ y_train))), Ok tt)
  end.

Definition predict (f : t) : t * result Z :=
  (f, (MeanForecaster.predict (base f)).2).

Definition set_params (f : t) (params : list (string * Z)) : t * result unit :=
  let '(b, r) := MeanForecaster.set_params (base f) params in (mk b, r).

Definition clone (f : t) : result t :=
  Ok (mk (MeanForecaster.mk (MeanForecaster.offset (base f)) None)).

#[global] Instance forecaster : Forecaster t Z nat (list (string * Z)) Z := {|
  fit_m := fit;
  predict_m := predict;
  set_params_m := set_params;
  clone_m := clone
|}.

End WarmStartForecaster.

(** ** Inputs for the examples *)

Module Scenario.

Import MeanForecaster.

(** A splitter that announces [n] and yields [ws]. *)
Definition fixed_cv (n : Z) (ws : list window) : CV Z := {|
  get_n_splits _ := Ok n;
  split _ := Ok ws
|}.

(** A store with one unfitted mean forecaster, at location 0. *)
Definition store : state t Z nat (list (string * Z)) Z :=
  mkState [MeanForecaster.mk 0 None] [].

(** A store with one unfitted warm-start forecaster, at location 0. *)
Definition warm_store : state WarmStartForecaster.t Z nat (list (string * Z)) Z :=
  mkState [WarmStartForecaster.mk (MeanForecaster.mk 0 None)] [].

(** The series 0, 1, ..., n-1. *)
Definition ramp (n : nat) : list Z := Z.of_nat <$> seq 0 n.

Definition series : list Z := [10; 0; 0; 5]%Z.

Definition w0 : window := ([0; 1]%Z, [2]%Z).
Definition w1 : window := ([1; 2]%Z, [3]%Z).

(** A window without train positions: [fit] raises on it. *)
Definition w_empty : window := ([], [0]%Z).

(** Series of length 50, sliding with an initial window of 20, step 5,
    horizon 5. *)
Definition initial_window_config : WindowSplitter.split_config :=
  WindowSplitter.mk_config WindowSplitter.sliding_with_initial_window 20 5 20 5.

(** Series of length 100, blocks of 20 train and 5 test positions. *)
Definition blocked_config : WindowSplitter.split_config :=
  WindowSplitter.mk_config WindowSplitter.blocked 20 1 20 5.

(** A grid that lists the same configuration twice, over two windows. *)
Definition repeated_grid : ForecastingGridSearchCV.t Z (list (string * Z)) Z Z :=
  ForecastingGridSearchCV.mk 0 [[("offset", 1%Z)]; [("offset", 1%Z)]]
    (Some (fixed_cv 2 [w0; w1])) "refit" (Some abs_error).

(** The same configuration twice, over one window. *)
Definition repeated_grid_one_window
  : ForecastingGridSearchCV.t Z (list (string * Z)) Z Z :=
  ForecastingGridSearchCV.mk 0 [[("offset", 1%Z)]; [("offset", 1%Z)]]
    (Some (fixed_cv 1 [w0])) "refit" (Some abs_error).

(** Two configurations with the same mean score: the forecast is one above
    or one below the only test observation. *)
Definition tie_series : list Z := [0; 2; 1]%Z.

Definition tie_grid : ForecastingGridSearchCV.t Z (list (string * Z)) Z Z :=
  ForecastingGridSearchCV.mk 0 [[("offset", 1%Z)]; [("offset", (-1)%Z)]]
    (Some (fixed_cv 1 [([0; 1]%Z, [2]%Z)])) "refit" (Some abs_error).

End Scenario.

(** ** The order of the calls

    The calls that [evaluate] makes on a forecaster, as an automaton over
    the log: [fit], then [predict], then the score, window after window. *)

Inductive phase : Type :=
  | Idle
  | Fitted
  | Predicted.

Section Protocol.

Context {Obs FH Params Pred : Type}.

Definition protocol_step (l : loc) (ph : phase)
    (e : event Obs FH Params Pred) : option phase :=
  match ph, e with
  | Idle, EFit l' _ _ => if l' =? l then Some Fitted else None
  | Fitted, EPredict l' => if l' =? l then Some Predicted else None
  | Predicted, EScore _ _ => Some Idle
  | _, _ => None
  end.

Fixpoint protocol_run (l : loc) (ph : phase)
    (evs : list (event Obs FH Params Pred)) : option phase :=
  match evs with
  | [] => Some ph
  | e :: evs' =>
      match protocol_step l ph e with
      | Some ph' => protocol_run l ph' evs'
      | None => None
      end
  end.

(** An event of a grid search over a store that had [n] objects and the
    template at [template]: a clone of the template into a new object, a
    [set_params], [fit] or [predict] on a new object, or a score; never an
    [update]. *)
Definition on_clone (n template : loc) (e : event Obs FH Params Pred) : bool :=
  match e with
  | EClone src dst => (src =? template) && (n <=? dst)
  | ESetParams l _ | EFit l _ _ | EPredict l => n <=? l
  | EUpdate _ _ => false
  | EScore _ _ => true
  end.

(** The calls of the body of the loop of [fit] for one configuration, when
    it runs to its end on the clone at [l]: the clone, the parameters, and
    the calls of [evaluate] window after window. *)
Definition config_events (template l : loc) (y : list Obs) (fh : FH)
    (params : Params) (ws : list window) (preds : list Pred)
  : list (event Obs FH Params Pred) :=
  [EClone template l; ESetParams l params]
  ++ concat (zip_with (window_events l y fh) ws preds).

(** The calls of a grid search that runs to its end over a store that had
    [n] objects: configuration [i] is evaluated on the clone at [n + i]. *)
Definition grid_events (template n : loc) (y : list Obs) (fh : FH)
    (ws : list window) (runs : list (Params * list Pred))
  : list (event Obs FH Params Pred) :=
  concat (imap (λ i run, config_events template (n + i) y fh run.1 ws run.2)
            runs).

(** The positions of a window are positions of the series. *)
Definition indexable (y : list Obs) (w : window) : Prop :=
  ∃ y_train y_test, iloc y w.1 = Ok y_train ∧ iloc y w.2 = Ok y_test.

(** The splitter does not announce more splits than it yields windows, so
    that no cell of the score array is left as [np.empty] found it. *)
Definition fills_scores (cv : option (CV Obs)) (y : list Obs) : Prop :=
  ∀ c n ws, cv = Some c → get_n_splits c y = Ok n → split c y = Ok ws →
    (n ≤ Z.of_nat (length ws))%Z.

(** The score array has [float64] cells, and the write [scores[i] = ...]
    converts what the scoring callable returned.  [float_scoring] is a
    callable with values of any kind followed by that conversion; for a
    write inside the array it is what the assignment stores. *)
Definition float_scoring {Score Value : Type}
    (to_float64 : Value → result Score)
    (f : list Obs → Pred → result Value) : Scoring Obs Pred Score :=
  λ y_test y_pred, rbind (f y_test y_pred) to_float64.

End Protocol.

(** ** More inputs for the examples *)

Module Scenario2.

Import MeanForecaster.
Import Scenario.

(** A store where the mean forecaster is the second object, after a fitted
    one, and the log is not empty. *)
Definition busy_store : state t Z nat (list (string * Z)) Z :=
  mkState [MeanForecaster.mk 7 (Some [1%Z]); MeanForecaster.mk 0 None]
    [EPredict 0].

(** A grid whose second configuration names a parameter that the forecaster
    does not have. *)
Definition bad_grid : ForecastingGridSearchCV.t Z (list (string * Z)) Z Z :=
  ForecastingGridSearchCV.mk 0
    [[("offset", 1%Z)]; [("trend", 1%Z)]; [("offset", 2%Z)]]
    (Some (fixed_cv 2 [w0; w1])) "refit" (Some abs_error).

(** The conversion of an integer score to a cell, for the examples. *)
Definition to_float64 (v : Z) : result Z := Ok v.

(** A grid without configurations. *)
Definition empty_grid : ForecastingGridSearchCV.t Z (list (string * Z)) Z Z :=
  ForecastingGridSearchCV.mk 0 [] None "refit" None.

End Scenario2.

(** * Properties *)

(** ** Computations *)

Section MonadFacts.

Context {St A B : Type}.

Lemma bind_inv (m : M St A) (k : A → M St B) s s' r :
  bind m k s = (s', r) →
  (∃ s1 a, m s = (s1, Ok a) ∧ k a s1 = (s', r)) ∨
  (∃ e, m s = (s', Raise e) ∧ r = Raise e).
Proof.
  unfold bind. destruct (m s) as [s1 [a|e]]; intros Hk.
  - left. eauto.
  - right. exists e. by inversion Hk.
Qed.

Lemma bind_ok (m : M St A) (k : A → M St B) s s' b :
  bind m k s = (s', Ok b) →
  ∃ s1 a, m s = (s1, Ok a) ∧ k a s1 = (s', Ok b).
Proof.
  intros [H | (e & _ & He)]%bind_inv; [done | discriminate].
Qed.

Lemma bind_step (m : M St A) (k : A → M St B) s s1 a :
  m s = (s1, Ok a) → bind m k s = k a s1.
Proof. unfold bind. by intros ->. Qed.

Lemma bind_raise (m : M St A) (k : A → M St B) s s1 e :
  m s = (s1, Raise e) → bind m k s = (s1, Raise e).
Proof. unfold bind. by intros ->. Qed.

End MonadFacts.

(** ** Loops that fill an array by index *)

Section LoopFacts.

Context {St A V : Type}.
Implicit Types (body : A → M St V) (xs : list A) (arr : ndarray V).

Lemma setitem_lt arr i (v : V) :
  i < length arr → setitem arr i v = Ok (<[i := Some v]> arr).
Proof. intros Hi. unfold setitem. by apply Nat.ltb_lt in Hi as ->. Qed.

Lemma setitem_ge arr i (v : V) :
  length arr ≤ i → setitem arr i v = Raise IndexError.
Proof. intros Hi. unfold setitem. by apply Nat.ltb_ge in Hi as ->. Qed.

Lemma mapM_length body xs s s' vs :
  mapM body xs s = (s', Ok vs) → length vs = length xs.
Proof.
  revert s s' vs. induction xs as [|x xs IH]; intros s s' vs; simpl.
  - unfold ret. by intros [= _ <-].
  - intros (s1 & v & _ & (s2 & vs' & Hvs & Hr)%bind_ok)%bind_ok.
    unfold ret in Hr. injection Hr as _ <-. simpl. f_equal. eauto.
Qed.

Lemma write_from_nil arr i : write_from arr i [] = arr.
Proof.
  unfold write_from. simpl. rewrite Nat.add_0_r. apply take_drop.
Qed.

Lemma write_from_insert arr i (v : V) vs :
  i < length arr →
  write_from (<[i := Some v]> arr) (S i) vs = write_from arr i (v :: vs).
Proof.
  intros Hi. unfold write_from.
  rewrite (take_S_r _ _ (Some v)) by by apply list_lookup_insert_eq.
  rewrite take_insert_ge by done.
  rewrite drop_insert_lt by lia.
  rewrite <- app_assoc, fmap_cons. simpl.
  by replace (i + S (length vs)) with (S (i + length vs)) by lia.
Qed.

Lemma length_write_from arr i vs :
  i + length vs ≤ length arr → length (write_from arr i vs) = length arr.
Proof.
  intros Hi. unfold write_from.
  rewrite !length_app, length_take, length_fmap, length_drop. lia.
Qed.

Lemma write_from_empty n (vs : list V) :
  write_from (replicate n None) 0 vs
  = (Some <$> vs) ++ replicate (n - length vs) None.
Proof. unfold write_from. simpl. by rewrite drop_replicate. Qed.

(** As long as the array is long enough, the loop is [mapM] followed by one
    write of all the values: no write raises. *)
Lemma enum_loop_fits body xs i arr s :
  i + length xs ≤ length arr →
  enum_loop body i xs arr s
  = (vs <- mapM body xs;; ret (write_from arr i vs)) s.
Proof.
  revert i arr s. induction xs as [|x xs IH]; intros i arr s Hlen; simpl in *.
  - unfold bind, ret. by rewrite write_from_nil.
  - unfold bind at 1 3 4. destruct (body x s) as [s1 [v|e]]; [|done].
    unfold bind at 1, lift. rewrite setitem_lt by lia.
    rewrite IH by (rewrite length_insert; lia).
    unfold bind, ret. destruct (mapM body xs s1) as [s2 [vs|e]]; [|done].
    by rewrite write_from_insert by lia.
Qed.

(** With more elements than cells, the write that follows the last cell
    raises, when the loop gets that far. *)
Lemma enum_loop_overflow body xs i arr s s' vs :
  i ≤ length arr → length arr < i + length xs →
  mapM body (take (S (length arr - i)) xs) s = (s', Ok vs) →
  enum_loop body i xs arr s = (s', Raise IndexError).
Proof.
  revert i arr s vs. induction xs as [|x xs IH]; intros i arr s vs Hi Hlen; simpl in *.
  - lia.
  - intros (s1 & v & Hv & (s2 & vs' & Hvs & Hr)%bind_ok)%bind_ok.
    unfold ret in Hr. injection Hr as -> _.
    rewrite (bind_step _ _ _ _ _ Hv).
    destruct (decide (i = length arr)) as [->|Hne].
    + rewrite Nat.sub_diag in Hvs. simpl in Hvs. unfold ret in Hvs.
      injection Hvs as -> _.
      unfold bind, lift. by rewrite setitem_ge.
    + unfold bind at 1, lift. rewrite setitem_lt by lia.
      apply (IH _ _ _ vs'); rewrite ?length_insert; [lia | lia |].
      by replace (length arr - S i) with (length arr - i - 1) by lia;
         replace (S (length arr - i - 1)) with (length arr - i) by lia.
Qed.

(** The first element on which the body raises ends the loop, in the state
    and with the exception of that call. *)
Lemma enum_loop_raise body pre x post i arr s s1 s2 vs e :
  i + length pre ≤ length arr →
  mapM body pre s = (s1, Ok vs) →
  body x s1 = (s2, Raise e) →
  enum_loop body i (pre ++ x :: post) arr s = (s2, Raise e).
Proof.
  revert i arr s vs. induction pre as [|p pre IH]; intros i arr s vs Hlen; simpl in *.
  - unfold ret. intros [= -> _] Hx. by apply bind_raise.
  - intros (s' & v & Hv & (s'' & vs' & Hvs & Hr)%bind_ok)%bind_ok Hx.
    unfold ret in Hr. injection Hr as -> _.
    rewrite (bind_step _ _ _ _ _ Hv).
    unfold bind at 1, lift. rewrite setitem_lt by lia.
    apply (IH _ _ _ vs'); rewrite ?length_insert; [lia | done | done].
Qed.

Lemma mapM_raise body pre x post s s1 s2 vs e :
  mapM body pre s = (s1, Ok vs) →
  body x s1 = (s2, Raise e) →
  mapM body (pre ++ x :: post) s = (s2, Raise e).
Proof.
  revert s vs. induction pre as [|p pre IH]; intros s vs; simpl.
  - unfold ret. intros [= -> _] Hx. by apply bind_raise.
  - intros (s' & v & Hv & (s'' & vs' & Hvs & Hr)%bind_ok)%bind_ok Hx.
    unfold ret in Hr. injection Hr as -> _.
    rewrite (bind_step _ _ _ _ _ Hv).
    by rewrite (bind_raise _ _ _ _ _ (IH _ _ Hvs Hx)).
Qed.

(** A loop that returns wrote the value of every element, in order, and
    found a cell for each. *)
Lemma enum_loop_ok_inv body xs i arr s s' arr' :
  i ≤ length arr →
  enum_loop body i xs arr s = (s', Ok arr') →
  ∃ vs, mapM body xs s = (s', Ok vs) ∧ arr' = write_from arr i vs ∧
        i + length xs ≤ length arr.
Proof.
  revert i arr s. induction xs as [|x xs IH]; intros i arr s Hi; simpl.
  - unfold ret. intros [= -> ->]. exists []. rewrite write_from_nil.
    split_and!; [done | done | lia].
  - intros (s1 & v & Hv & (s2 & a & Ha & Hloop)%bind_ok)%bind_ok.
    unfold lift, setitem in Ha. destruct (Nat.ltb_spec i (length arr)); [|done].
    injection Ha as <- <-.
    apply IH in Hloop as (vs & Hvs & -> & Hlen); [|rewrite length_insert; lia].
    rewrite length_insert in Hlen.
    exists (v :: vs). rewrite (bind_step _ _ _ _ _ Hv), (bind_step _ _ _ _ _ Hvs).
    split_and!; [done | by apply write_from_insert | lia].
Qed.

End LoopFacts.

(** ** [evaluate] *)

Section EvaluateFacts.

Context {F Obs FH Params Pred Score : Type}.
Context `{!Forecaster F Obs FH Params Pred}.

Abbreviation St := (state F Obs FH Params Pred).
Implicit Types (s : St) (l : loc) (y : list Obs) (fh : FH)
  (scoring : option (Scoring Obs Pred Score)) (ws : list window).

Lemma eval_loop_enum l y fh scoring ws i (arr : ndarray Score) s :
  eval_loop l y fh scoring i ws arr s
  = enum_loop (eval_window l y fh scoring) i ws arr s.
Proof.
  revert i arr s. induction ws as [|w ws IH]; intros i arr s; simpl; [done|].
  unfold bind. destruct (eval_window l y fh scoring w s) as [s1 [v|e]]; [|done].
  destruct (lift (setitem arr i v) s1) as [s2 [a|e]]; [|done]. apply IH.
Qed.

Lemma np_empty_of_nat n : @np_empty Score (Z.of_nat n) = Ok (replicate n None).
Proof.
  unfold np_empty. destruct (Z.ltb_spec (Z.of_nat n) 0); [lia|].
  by rewrite Nat2Z.id.
Qed.

(** [evaluate] when the splitter yields no more pairs than it announced. *)
Lemma evaluate_fits l y fh cv strategy scoring n ws s :
  get_n_splits cv y = Ok (Z.of_nat n) → split cv y = Ok ws →
  length ws ≤ n →
  evaluate l y fh (Some cv) strategy scoring s
  = (scs <- eval_windows l y fh scoring ws;;
     ret ((Some <$> scs) ++ replicate (n - length ws) None)) s.
Proof.
  intros Hn Hws Hle. unfold evaluate, eval_windows.
  unfold bind at 1, lift. rewrite Hn.
  unfold bind at 1. rewrite np_empty_of_nat.
  unfold bind at 1. rewrite Hws.
  rewrite eval_loop_enum, enum_loop_fits by (rewrite length_replicate; lia).
  unfold bind, ret.
  destruct (mapM _ ws s) as [s1 [scs|e]] eqn:Hm; [|done].
  by rewrite write_from_empty, (mapM_length _ _ _ _ _ Hm).
Qed.

(** [evaluate] when the splitter yields more pairs than it announced. *)
Lemma evaluate_overflow l y fh cv strategy scoring n ws s s' scs :
  get_n_splits cv y = Ok (Z.of_nat n) → split cv y = Ok ws →
  n < length ws →
  eval_windows l y fh scoring (take (S n) ws) s = (s', Ok scs) →
  evaluate l y fh (Some cv) strategy scoring s = (s', Raise IndexError).
Proof.
  intros Hn Hws Hlt Hm. unfold evaluate.
  unfold bind at 1, lift. rewrite Hn.
  unfold bind at 1. rewrite np_empty_of_nat.
  unfold bind at 1. rewrite Hws.
  rewrite eval_loop_enum. apply (enum_loop_overflow _ _ _ _ _ _ scs).
  - lia.
  - rewrite length_replicate. lia.
  - by rewrite length_replicate, Nat.sub_0_r.
Qed.

(** A run of [evaluate] that returns went through all the windows. *)
Lemma evaluate_ok_inv l y fh cv strategy scoring s s' scores :
  evaluate l y fh (Some cv) strategy scoring s = (s', Ok scores) →
  ∃ n ws scs,
    get_n_splits cv y = Ok (Z.of_nat n) ∧ split cv y = Ok ws ∧
    length ws ≤ n ∧
    eval_windows l y fh scoring ws s = (s', Ok scs) ∧
    scores = (Some <$> scs) ++ replicate (n - length ws) None.
Proof.
  unfold evaluate.
  intros (s1 & z & Hz & (s2 & arr & Harr & (s3 & ws & Hws & Hloop)%bind_ok)%bind_ok)%bind_ok.
  unfold lift in *. injection Hz as <- Hz. injection Harr as <- Harr.
  injection Hws as <- Hws.
  unfold np_empty in Harr. destruct (Z.ltb_spec z 0); [done|].
  injection Harr as <-.
  rewrite eval_loop_enum in Hloop.
  apply enum_loop_ok_inv in Hloop as (scs & Hm & -> & Hlen); [|lia].
  rewrite length_replicate in Hlen. simpl in Hlen.
  exists (Z.to_nat z), ws, scs. rewrite Z2Nat.id by lia.
  split_and!; try done.
  by rewrite write_from_empty, (mapM_length _ _ _ _ _ Hm).
Qed.

End EvaluateFacts.

(** ** The store and the log along [evaluate] *)

Section StoreFacts.

Context {F Obs FH Params Pred Score : Type}.
Context `{!Forecaster F Obs FH Params Pred}.

Abbreviation St := (state F Obs FH Params Pred).
Implicit Types (s : St) (l : loc) (y : list Obs) (fh : FH)
  (scoring : option (Scoring Obs Pred Score)) (ws : list window).

Lemma touches_only_refl l s : touches_only l s s.
Proof. by split. Qed.

Lemma touches_only_trans l s1 s2 s3 :
  touches_only l s1 s2 → touches_only l s2 s3 → touches_only l s1 s3.
Proof.
  intros [H1 H1'] [H2 H2']. split; [congruence|].
  intros l' Hl'. by rewrite H2', H1'.
Qed.

Lemma touches_only_insert l s (f : F) evs :
  touches_only l s (mkState (<[l := f]> (heap s)) evs).
Proof.
  split; simpl; [apply length_insert|].
  intros l' Hl'. by apply list_lookup_insert_ne.
Qed.

Lemma invoke_inv {R} l (m : F → F * result R) s s' r :
  invoke l m s = (s', r) →
  (∃ f, heap s !! l = Some f ∧ r = (m f).2 ∧
        s' = mkState (<[l := (m f).1]> (heap s)) (log s)) ∨
  (heap s !! l = None ∧ r = Raise ReferenceError ∧ s' = s).
Proof.
  unfold invoke. destruct (heap s !! l) as [f|] eqn:Hf;
    [|intros [= <- <-]; by right].
  destruct (m f) as [f' r'] eqn:Hm. intros [= <- <-]. left. exists f.
  by rewrite Hm.
Qed.

(** What one iteration that reaches its score did. *)
Lemma eval_window_ok l y fh scoring w s s' sc :
  eval_window l y fh scoring w s = (s', Ok sc) ↔
  ∃ y_train y_test f f1 f2 y_pred score,
    iloc y w.1 = Ok y_train ∧ iloc y w.2 = Ok y_test ∧
    heap s !! l = Some f ∧
    fit_m f y_train fh = (f1, Ok tt) ∧
    predict_m f1 = (f2, Ok y_pred) ∧
    scoring = Some score ∧ score y_test y_pred = Ok sc ∧
    s' = mkState (<[l := f2]> (<[l := f1]> (heap s)))
           (log s ++ [EFit l y_train fh; EPredict l; EScore y_test y_pred]).
Proof.
  unfold eval_window, call_fit, call_predict, call_scoring.
  unfold bind, lift, emit, invoke, raise. simpl. split.
  - destruct (iloc y w.1) as [y_train|]; [|done].
    destruct (iloc y w.2) as [y_test|]; [|done].
    destruct (heap s !! l) as [f|] eqn:Hf; [|done].
    destruct (fit_m f y_train fh) as [f1 [[]|]] eqn:Hfit; [|done]. simpl.
    rewrite list_lookup_insert_eq by by eapply lookup_lt_Some.
    destruct (predict_m f1) as [f2 [y_pred|]] eqn:Hp; [|done].
    destruct scoring as [score|]; [|done]. simpl.
    destruct (score y_test y_pred) as [v|] eqn:Hs; [|done].
    intros [= <- <-]. exists y_train, y_test, f, f1, f2, y_pred, score.
    by rewrite <- !app_assoc.
  - intros (y_train & y_test & f & f1 & f2 & y_pred & score
            & -> & -> & Hf & Hfit & Hp & -> & Hs & ->).
    rewrite Hf, Hfit. simpl.
    rewrite list_lookup_insert_eq by by eapply lookup_lt_Some.
    rewrite Hp. simpl. rewrite Hs. by rewrite <- !app_assoc.
Qed.

(** Whatever its outcome, an iteration changes the forecaster it was given
    and nothing else in the store, and only extends the log. *)
Lemma eval_window_touches l y fh scoring w s s' (r : result Score) :
  eval_window l y fh scoring w s = (s', r) →
  touches_only l s s' ∧ ∃ evs, log s' = log s ++ evs.
Proof.
  unfold eval_window, call_fit, call_predict, call_scoring.
  unfold bind, lift, emit, invoke, raise. simpl.
  destruct (iloc y w.1) as [y_train|];
    [|intros [= <- _]; split; [apply touches_only_refl | by exists []; rewrite app_nil_r]].
  destruct (iloc y w.2) as [y_test|];
    [|intros [= <- _]; split; [apply touches_only_refl | by exists []; rewrite app_nil_r]].
  destruct (heap s !! l) as [f|] eqn:Hf;
    [|intros [= <- _]; split; [by split | by eexists]].
  destruct (fit_m f y_train fh) as [f1 [[]|]]; simpl;
    [|intros [= <- _]; split; [apply touches_only_insert | by eexists]].
  rewrite list_lookup_insert_eq by by eapply lookup_lt_Some.
  assert (∀ f2 evs, touches_only l s
            (mkState (<[l:=f2]> (<[l:=f1]> (heap s))) evs)) as Htouch.
  { intros f2 evs. eapply touches_only_trans; [apply (touches_only_insert l s f1 [])|].
    apply (touches_only_insert l (mkState _ _)). }
  destruct (predict_m f1) as [f2 [y_pred|]]; simpl;
    [|intros [= <- _]; split; [apply Htouch | rewrite <- app_assoc; by eexists]].
  destruct scoring as [score|]; simpl;
    [|intros [= <- _]; split; [apply Htouch | rewrite <- app_assoc; by eexists]].
  intros [= <- _]. split; [apply Htouch | rewrite <- !app_assoc; by eexists].
Qed.

End StoreFacts.

(** ** The log and the forecaster along the windows *)

Section WindowFacts.

Context {F Obs FH Params Pred Score : Type}.
Context `{!Forecaster F Obs FH Params Pred}.

Abbreviation St := (state F Obs FH Params Pred).
Abbreviation Ev := (event Obs FH Params Pred).
Implicit Types (s t : St) (l : loc) (y : list Obs) (fh : FH)
  (scoring : option (Scoring Obs Pred Score)) (ws : list window).

Lemma n_fits_app (evs evs' : list Ev) :
  n_fits (evs ++ evs') = n_fits evs + n_fits evs'.
Proof. unfold n_fits. by rewrite List.filter_app, length_app. Qed.

Lemma n_updates_app (evs evs' : list Ev) :
  n_updates (evs ++ evs') = n_updates evs + n_updates evs'.
Proof. unfold n_updates. by rewrite List.filter_app, length_app. Qed.

(** A preorder on states that every iteration respects is respected by the
    whole loop, whatever its outcome. *)
Lemma mapM_rel {A V} (R : relation St) `{!Reflexive R} `{!Transitive R}
    (body : A → M St V) xs s s' r :
  (∀ x s s' r, body x s = (s', r) → R s s') →
  mapM body xs s = (s', r) → R s s'.
Proof.
  intros Hbody. revert s r. induction xs as [|x xs IH]; intros s r; simpl.
  - unfold ret. by intros [= <- _].
  - intros [(s1 & v & Hv & [(s2 & vs & Hvs & Hr)|(e & Hvs & _)]%bind_inv)
           |(e & Hv & _)]%bind_inv.
    + unfold ret in Hr. injection Hr as <- _.
      etrans; [by eapply Hbody | by eapply IH].
    + etrans; [by eapply Hbody | by eapply IH].
    + by eapply Hbody.
Qed.

Lemma enum_loop_rel {A V} (R : relation St) `{!Reflexive R} `{!Transitive R}
    (body : A → M St V) xs i arr s s' r :
  (∀ x s s' r, body x s = (s', r) → R s s') →
  enum_loop body i xs arr s = (s', r) → R s s'.
Proof.
  intros Hbody. revert i arr s r.
  induction xs as [|x xs IH]; intros i arr s r; simpl.
  - unfold ret. by intros [= <- _].
  - intros [(s1 & v & Hv & [(s2 & a & Ha & Hr)|(e & Ha & _)]%bind_inv)
           |(e & Hv & _)]%bind_inv.
    + unfold lift in Ha. injection Ha as <- _.
      etrans; [by eapply Hbody | by eapply IH].
    + unfold lift in Ha. injection Ha as <- _. by eapply Hbody.
    + by eapply Hbody.
Qed.

(** A measure that every iteration that returns raises by [k] is raised by
    [k] times the number of elements by a loop that returns. *)
Lemma mapM_count {A V} (mu : St → nat) (k : nat) (body : A → M St V)
    xs s s' vs :
  (∀ x s s' v, body x s = (s', Ok v) → mu s' = mu s + k) →
  mapM body xs s = (s', Ok vs) → mu s' = mu s + k * length xs.
Proof.
  intros Hbody. revert s vs. induction xs as [|x xs IH]; intros s vs; simpl.
  - unfold ret. intros [= <- _]. lia.
  - intros (s1 & v & Hv & (s2 & vs' & Hvs & Hr)%bind_ok)%bind_ok.
    unfold ret in Hr. injection Hr as <- _.
    rewrite (IH _ _ Hvs), (Hbody _ _ _ _ Hv). lia.
Qed.

#[local] Instance touches_only_reflexive l :
  Reflexive (touches_only (F:=F) (Obs:=Obs) (FH:=FH) (Params:=Params) (Pred:=Pred) l).
Proof. intros s. apply touches_only_refl. Qed.

#[local] Instance touches_only_transitive l :
  Transitive (touches_only (F:=F) (Obs:=Obs) (FH:=FH) (Params:=Params) (Pred:=Pred) l).
Proof. intros s1 s2 s3. apply touches_only_trans. Qed.

(** [evaluate] changes the forecaster it was given and nothing else in the
    store, whatever its outcome. *)
Lemma evaluate_touches l y fh cv strategy scoring s s' (r : result (ndarray Score)) :
  evaluate l y fh cv strategy scoring s = (s', r) → touches_only l s s'.
Proof.
  unfold evaluate. destruct cv as [cv|]; [|intros [= <- _]; apply touches_only_refl].
  unfold bind at 1, lift.
  destruct (get_n_splits cv y); [|intros [= <- _]; apply touches_only_refl].
  unfold bind at 1.
  destruct (np_empty _); [|intros [= <- _]; apply touches_only_refl].
  unfold bind at 1.
  destruct (split cv y) as [ws|]; [|intros [= <- _]; apply touches_only_refl].
  rewrite eval_loop_enum. apply enum_loop_rel; [apply _ ..|].
  intros w s1 s2 r' Hw. by apply eval_window_touches in Hw as [? _].
Qed.

(** Every window that is scored costs one [fit] and no [update]. *)
Lemma eval_windows_n_fits l y fh scoring ws s s' (scs : list Score) :
  eval_windows l y fh scoring ws s = (s', Ok scs) →
  n_fits (log s') = n_fits (log s) + length ws.
Proof.
  intros Hm.
  eapply (mapM_count (λ s, n_fits (log s)) 1) in Hm; [simpl in Hm; lia|].
  intros w s1 s2 v (? & ? & ? & ? & ? & ? & ? & _ & _ & _ & _ & _ & _ & _ & ->)%eval_window_ok.
  simpl. by rewrite n_fits_app.
Qed.

Lemma eval_windows_n_updates l y fh scoring ws s s' (scs : list Score) :
  eval_windows l y fh scoring ws s = (s', Ok scs) →
  n_updates (log s') = n_updates (log s).
Proof.
  intros Hm.
  eapply (mapM_count (λ s, n_updates (log s)) 0) in Hm; [simpl in Hm; lia|].
  intros w s1 s2 v (? & ? & ? & ? & ? & ? & ? & _ & _ & _ & _ & _ & _ & _ & ->)%eval_window_ok.
  simpl. by rewrite n_updates_app.
Qed.

(** The log of the windows that are scored: [fit], [predict] and the score
    of each window, window after window. *)
Lemma eval_windows_log l y fh scoring ws s s' (scs : list Score) :
  eval_windows l y fh scoring ws s = (s', Ok scs) →
  ∃ preds, length preds = length ws ∧
    log s' = log s ++ concat (zip_with (window_events l y fh) ws preds).
Proof.
  unfold eval_windows. revert s scs.
  induction ws as [|w ws IH]; intros s scs; simpl.
  - unfold ret. intros [= <- _]. exists []. by rewrite app_nil_r.
  - intros (s1 & v & Hv & (s2 & vs' & Hvs & Hr)%bind_ok)%bind_ok.
    unfold ret in Hr. injection Hr as <- _.
    apply eval_window_ok in Hv
      as (y_train & y_test & f & f1 & f2 & y_pred & score
          & Htr & Hte & _ & _ & _ & _ & _ & ->).
    apply IH in Hvs as (preds & Hlen & ->). simpl.
    exists (y_pred :: preds). split; [simpl; by f_equal|].
    simpl. unfold window_events at 2. rewrite Htr, Hte.
    by rewrite <- app_assoc.
Qed.

(** Scoring a window needs the forecaster to be in the store. *)
Lemma eval_windows_forecaster l y fh scoring ws s s' (scs : list Score) :
  eval_windows l y fh scoring ws s = (s', Ok scs) → ws ≠ [] →
  ∃ f, heap s !! l = Some f.
Proof.
  destruct ws as [|w ws]; [done|]. intros Hm _.
  unfold eval_windows in Hm. simpl in Hm.
  apply bind_ok in Hm as (s1 & v & Hv & _).
  apply eval_window_ok in Hv as (? & ? & f & ? & ? & ? & ? & _ & _ & Hf & _).
  by exists f.
Qed.

Lemma refit_equiv_trans (f g h : F) :
  refit_equiv f g → refit_equiv g h → refit_equiv f h.
Proof.
  intros Hfg Hgh y_train fh.
  destruct (Hfg y_train fh) as [Hr Hs], (Hgh y_train fh) as [Hr' Hs'].
  split; [congruence|]. intros Hok. rewrite Hs by done. apply Hs'. congruence.
Qed.

Lemma refit_equiv_fit (f g f1 : F) y_train fh :
  refit_equiv f g → fit_m f y_train fh = (f1, Ok tt) →
  fit_m g y_train fh = (f1, Ok tt).
Proof.
  intros Hfg Hfit. destruct (Hfg y_train fh) as [Hr Hs].
  rewrite Hfit in Hr, Hs. simpl in *.
  destruct (fit_m g y_train fh) as [g1 r]. simpl in *.
  by rewrite <- Hr, <- Hs.
Qed.

(** When [fit] resets the forecaster, a window scores the same from any two
    states of the forecaster that an earlier [fit] or [predict] separates. *)
Lemma eval_window_refit l y fh scoring w s t f g s' (sc : Score) :
  fit_resets →
  heap s !! l = Some f → heap t !! l = Some g → refit_equiv f g →
  eval_window l y fh scoring w s = (s', Ok sc) →
  (∃ t', eval_window l y fh scoring w t = (t', Ok sc)) ∧
  ∃ f', heap s' !! l = Some f' ∧ refit_equiv f' g.
Proof.
  intros [Hfit Hpred] Hf Hg Hfg
    (y_train & y_test & f0 & f1 & f2 & y_pred & score
     & Htr & Hte & Hf0 & Hfit1 & Hp & Hsc & Hs & ->)%eval_window_ok.
  assert (f0 = f) as -> by congruence.
  split.
  - eexists. apply eval_window_ok.
    exists y_train, y_test, g, f1, f2, y_pred, score.
    split_and!; try done. by eapply refit_equiv_fit.
  - exists f2. simpl. split.
    + apply list_lookup_insert_eq. rewrite length_insert.
      by eapply lookup_lt_Some.
    + replace f2 with (predict_m f1).1 by by rewrite Hp.
      eapply refit_equiv_trans; [apply Hpred|].
      replace f1 with (fit_m f y_train fh).1 by by rewrite Hfit1.
      eapply refit_equiv_trans; [apply Hfit | done].
Qed.

Lemma eval_windows_refit l y fh scoring ws s t f g s' (scs : list Score) :
  fit_resets →
  heap s !! l = Some f → heap t !! l = Some g → refit_equiv f g →
  eval_windows l y fh scoring ws s = (s', Ok scs) →
  ∀ i w, ws !! i = Some w →
    ∃ t' sc, eval_window l y fh scoring w t = (t', Ok sc) ∧ scs !! i = Some sc.
Proof.
  intros Hres. unfold eval_windows. revert s f scs.
  induction ws as [|w0 ws IH]; intros s f scs Hf Hg Hfg; simpl.
  - intros _ i w. by rewrite lookup_nil.
  - intros (s1 & v & Hv & (s2 & vs' & Hvs & Hr)%bind_ok)%bind_ok.
    unfold ret in Hr. injection Hr as <- <-.
    destruct (eval_window_refit _ _ _ _ _ _ _ _ _ _ _ Hres Hf Hg Hfg Hv)
      as [[t' Ht'] (f' & Hf' & Hf'g)].
    intros [|i] w; simpl.
    + intros [= <-]. by exists t', v.
    + by apply (IH _ _ _ Hf' Hg Hf'g Hvs).
Qed.

End WindowFacts.

(** ** [ForecastingGridSearchCV.fit] *)

Section GridFacts.

Import ForecastingGridSearchCV.

Context {F Obs FH Params Pred Score : Type}.
Context `{!Forecaster F Obs FH Params Pred}.
Variable np_mean : ndarray Score → Score.

Abbreviation St := (state F Obs FH Params Pred).
Abbreviation GS := (ForecastingGridSearchCV.t Obs Params Pred Score).
Implicit Types (s : St) (l : loc) (y : list Obs) (fh : FH) (self : GS).

Lemma preserves_old_refl s : preserves_old s s.
Proof. by split. Qed.

Lemma preserves_old_trans s1 s2 s3 :
  preserves_old s1 s2 → preserves_old s2 s3 → preserves_old s1 s3.
Proof.
  intros [H1 H1'] [H2 H2']. split; [lia|].
  intros l Hl. rewrite H2' by lia. by apply H1'.
Qed.

#[local] Instance preserves_old_reflexive :
  Reflexive (preserves_old (F:=F) (Obs:=Obs) (FH:=FH) (Params:=Params) (Pred:=Pred)).
Proof. intros s. apply preserves_old_refl. Qed.

#[local] Instance preserves_old_transitive :
  Transitive (preserves_old (F:=F) (Obs:=Obs) (FH:=FH) (Params:=Params) (Pred:=Pred)).
Proof. intros s1 s2 s3. apply preserves_old_trans. Qed.

Lemma touches_preserves s s1 s2 l :
  preserves_old s s1 → touches_only l s1 s2 → length (heap s) ≤ l →
  preserves_old s s2.
Proof.
  intros [H1 H1'] [H2 H2'] Hl. split; [lia|].
  intros l' Hl'. rewrite H2' by lia. by apply H1'.
Qed.

(** [clone] either raises and leaves the state as it was, or puts the new
    object at the end of the store. *)
Lemma clone_inv l s s' (r : result loc) :
  clone l s = (s', r) →
  (∃ f f', heap s !! l = Some f ∧ clone_m f = Ok f' ∧
           r = Ok (length (heap s)) ∧
           s' = mkState (heap s ++ [f'])
                  (log s ++ [EClone l (length (heap s))])) ∨
  (s' = s ∧ ∃ e, r = Raise e).
Proof.
  unfold clone, bind, read, lift, alloc, emit, ret. simpl.
  destruct (heap s !! l) as [f|] eqn:Hf; [|intros [= <- <-]; right; eauto].
  destruct (clone_m f) as [f'|e] eqn:Hf'; [|intros [= <- <-]; right; eauto].
  intros [= <- <-]. left. by exists f, f'.
Qed.

Lemma call_set_params_inv l (params : Params) s s' (r : result unit) :
  call_set_params l params s = (s', r) →
  touches_only l s s' ∧ log s' = log s ++ [ESetParams l params].
Proof.
  unfold call_set_params, bind, emit, invoke. simpl.
  destruct (heap s !! l) as [f|]; [|intros [= <- _]; by split].
  destruct (set_params_m f params) as [f' r']. intros [= <- _].
  split; [apply touches_only_insert | done].
Qed.

(** What the body of the loop did for a configuration whose mean it
    reached: the clone is a new object, the parameters went to the clone,
    and [evaluate] ran on the clone. *)
Lemma eval_params_ok self y fh params s s' (m : Score) :
  eval_params np_mean self y fh params s = (s', Ok m) →
  ∃ f f' f'' scores,
    let l := length (heap s) in
    heap s !! forecaster self = Some f ∧ clone_m f = Ok f' ∧
    set_params_m f' params = (f'', Ok tt) ∧
    evaluate l y fh (cv self) (strategy self) (scoring self)
      (mkState (heap s ++ [f''])
         (log s ++ [EClone (forecaster self) l; ESetParams l params]))
    = (s', Ok scores) ∧
    m = np_mean scores.
Proof.
  unfold eval_params.
  intros (s1 & l & Hc & (s2 & [] & Hp & (s3 & scores & He & Hr)%bind_ok)%bind_ok)%bind_ok.
  unfold ret in Hr. injection Hr as <- <-.
  apply clone_inv in Hc as [(f & f' & Hf & Hf' & [= ->] & ->)|[_ [e [=]]]].
  unfold call_set_params, bind, emit, invoke in Hp. simpl in Hp.
  rewrite lookup_app_r, Nat.sub_diag in Hp by done. simpl in Hp.
  destruct (set_params_m f' params) as [f'' [[]|]] eqn:Hf''; [|done].
  injection Hp as <-.
  exists f, f', f'', scores. simpl. split_and!; try done.
  rewrite <- He. do 2 f_equal.
  - rewrite insert_app_r_alt, Nat.sub_diag by done. done.
  - by rewrite <- app_assoc.
Qed.

(** The body of the loop leaves the objects that existed before it alone,
    whatever its outcome. *)
Lemma eval_params_preserves self y fh params s s' (r : result Score) :
  eval_params np_mean self y fh params s = (s', r) → preserves_old s s'.
Proof.
  unfold eval_params.
  intros [(s1 & l & Hc & Hrest)|(e & Hc & _)]%bind_inv.
  - apply clone_inv in Hc as [(f & f' & Hf & Hf' & [= ->] & ->)|[_ [e [=]]]].
    assert (preserves_old s
              (mkState (heap s ++ [f'])
                 (log s ++ [EClone (forecaster self) (length (heap s))])))
      as Hold.
    { split; simpl; [rewrite length_app; lia|].
      intros l Hl. by apply lookup_app_l. }
    apply bind_inv in Hrest
      as [(s2 & [] & Hp & Hrest)|(e & Hp & _)].
    + apply call_set_params_inv in Hp as [Hp _].
      pose proof (touches_preserves _ _ _ _ Hold Hp ltac:(done)) as Hold2.
      apply bind_inv in Hrest as [(s3 & scores & He & Hr)|(e & He & _)].
      * unfold ret in Hr. injection Hr as <- _.
        apply evaluate_touches in He.
        by eapply touches_preserves.
      * apply evaluate_touches in He. by eapply touches_preserves.
    + apply call_set_params_inv in Hp as [Hp _].
      by eapply touches_preserves.
  - apply clone_inv in Hc as [(? & ? & _ & _ & [=] & _)|[-> _]].
    apply preserves_old_refl.
Qed.

Lemma grid_loop_enum self y fh grid i (arr : ndarray Score) s :
  grid_loop np_mean self y fh i grid arr s
  = enum_loop (eval_params np_mean self y fh) i grid arr s.
Proof.
  revert i arr s. induction grid as [|p grid IH]; intros i arr s; simpl; [done|].
  unfold bind.
  destruct (eval_params np_mean self y fh p s) as [s1 [v|e]]; [|done].
  destruct (lift (setitem arr i v) s1) as [s2 [a|e]]; [|done]. apply IH.
Qed.

(** The array of [fit] has a cell for every configuration: the loop is the
    evaluation of the configurations in order. *)
Lemma fit_cv_results_mapM self y fh s :
  fit_cv_results np_mean self y fh s
  = (ms <- mapM (eval_params np_mean self y fh) (param_grid self);;
     ret (Some <$> ms)) s.
Proof.
  unfold fit_cv_results. unfold bind at 1, lift.
  rewrite np_empty_of_nat.
  rewrite grid_loop_enum, enum_loop_fits by by rewrite length_replicate.
  unfold bind, ret.
  destruct (mapM _ _ s) as [s1 [ms|e]] eqn:Hm; [|done].
  rewrite write_from_empty, (mapM_length _ _ _ _ _ Hm), Nat.sub_diag.
  by rewrite app_nil_r.
Qed.

Lemma fit_preserves {XT} self y fh (X : option XT) s s' (r : result GS) :
  fit np_mean self y fh X s = (s', r) →
  preserves_old s s' ∧ (r = Ok self ∨ ∃ e, r = Raise e).
Proof.
  unfold fit. intros [(s1 & a & Ha & Hr)|(e & Ha & ->)]%bind_inv.
  - unfold ret in Hr. injection Hr as <- <-.
    rewrite fit_cv_results_mapM in Ha.
    apply bind_ok in Ha as (s2 & ms & Hm & Hr).
    unfold ret in Hr. injection Hr as <- _.
    split; [|by left].
    eapply (mapM_rel preserves_old); [|done].
    intros. by eapply eval_params_preserves.
  - split; [|right; by eexists].
    rewrite fit_cv_results_mapM in Ha.
    apply bind_inv in Ha as [(s2 & ms & Hm & [=])|(e' & Hm & _)].
    eapply (mapM_rel preserves_old); [|done].
    intros. by eapply eval_params_preserves.
Qed.

(** A template that is not in the store stops the loop before it changes
    anything. *)
Lemma fit_dangling {XT} self y fh (X : option XT) s :
  heap s !! forecaster self = None →
  (fit np_mean self y fh X s).1 = s.
Proof.
  intros Hnone. unfold fit, bind. rewrite fit_cv_results_mapM.
  unfold bind. destruct (param_grid self) as [|p grid]; simpl; [done|].
  unfold bind, eval_params, bind, clone, bind, read. by rewrite Hnone.
Qed.

(** Every configuration whose mean is reached costs one [fit] per window. *)
Lemma eval_params_n_fits self y fh c ws params s s' (m : Score) :
  cv self = Some c → split c y = Ok ws →
  eval_params np_mean self y fh params s = (s', Ok m) →
  n_fits (log s') = n_fits (log s) + length ws.
Proof.
  intros Hcv Hws (f & f' & f'' & scores & _ & _ & _ & He & _)%eval_params_ok.
  rewrite Hcv in He.
  apply evaluate_ok_inv in He as (n & ws' & scs & _ & Hws' & _ & Hm & _).
  assert (ws' = ws) as -> by congruence.
  apply eval_windows_n_fits in Hm. simpl in Hm.
  by rewrite Hm, n_fits_app, Nat.add_0_r.
Qed.

End GridFacts.

(** ** The window splitter *)

Section SplitterFacts.

Import WindowSplitter.

Lemma stride_pos c : valid c → 0 < stride c.
Proof.
  intros (Hw & Hs & Hi & Hh). unfold stride. destruct (kind c); lia.
Qed.

Lemma first_train_length_pos c : valid c → 0 < first_train_length c.
Proof.
  intros (Hw & Hs & Hi & Hh). unfold first_train_length. by destruct (kind c).
Qed.

Lemma div_step a d : 0 < d → d ≤ a → a / d = (a - d) / d + 1.
Proof.
  intros Hd Hle. replace a with (a - d + 1 * d) at 1 by lia.
  rewrite Nat.div_add by lia. done.
Qed.

(** The windows generated from a cutoff whose test set fits are as many as
    the strides that fit after it, plus one, when the bound on the iteration
    is not reached. *)
Lemma windows_from_length c n fuel cutoff :
  0 < stride c → cutoff + horizon_length c ≤ n →
  (n - cutoff - horizon_length c) / stride c < fuel →
  length (windows_from c n fuel cutoff)
  = (n - cutoff - horizon_length c) / stride c + 1.
Proof.
  intros Hd. revert cutoff.
  induction fuel as [|fuel IH]; intros cutoff Hfit Hfuel; [lia|].
  simpl. destruct (Nat.leb_spec (cutoff + horizon_length c) n); [|lia].
  simpl. destruct (decide (cutoff + stride c + horizon_length c ≤ n)) as [Hnext|Hlast].
  - rewrite (div_step (n - cutoff - horizon_length c) (stride c)) in * by lia.
    replace (n - cutoff - horizon_length c - stride c)
      with (n - (cutoff + stride c) - horizon_length c) in * by lia.
    rewrite IH by lia. lia.
  - rewrite Nat.div_small by lia.
    destruct fuel as [|fuel']; simpl; [done|].
    by destruct (Nat.leb_spec (cutoff + stride c + horizon_length c) n); [lia|].
Qed.

Lemma div_le_self a d : 0 < d → a / d ≤ a.
Proof.
  intros Hd. pose proof (Nat.div_mod_eq a d). nia.
Qed.

(** The closed form counts the generated windows. *)
Lemma generate_n_splits c n :
  valid c → first_train_length c + horizon_length c ≤ n →
  ∃ ws, generate n c = Ok ws ∧ n_splits n c = Ok (length ws).
Proof.
  intros Hv Hn. pose proof (stride_pos c Hv) as Hd.
  pose proof (first_train_length_pos c Hv) as HL.
  unfold generate, n_splits.
  destruct (Nat.ltb_spec n (first_train_length c + horizon_length c)); [lia|].
  eexists. split; [done|]. f_equal.
  rewrite windows_from_length; [done | done | lia |].
  pose proof (div_le_self (n - first_train_length c - horizon_length c)
                (stride c) Hd).
  lia.
Qed.

Lemma iloc_pos_of_nat {Obs} (y : list Obs) i :
  i < length y → ∃ v, iloc_pos y (Z.of_nat i) = Ok v.
Proof.
  intros Hi. unfold iloc_pos.
  destruct (Z.ltb_spec (Z.of_nat i) 0); [lia|].
  destruct (Z.leb_spec 0 (Z.of_nat i)); [|lia].
  destruct (Z.ltb_spec (Z.of_nat i) (Z.of_nat (length y))); [|lia].
  simpl. rewrite Nat2Z.id.
  destruct (lookup_lt_is_Some_2 y i Hi) as [v ->]. by exists v.
Qed.

Lemma iloc_positions {Obs} (y : list Obs) a k :
  a + k ≤ length y → ∃ ys, iloc y (positions a k) = Ok ys.
Proof.
  unfold iloc, positions. revert a.
  induction k as [|k IH]; intros a Hle; [by exists []|].
  cbn [seq]. rewrite fmap_cons. cbn [rmap].
  destruct (iloc_pos_of_nat y a) as [v ->]; [lia|].
  destruct (IH (S a)) as [ys Hys]; [lia|].
  cbn [rbind]. rewrite Hys. by eexists.
Qed.

Lemma window_at_indexable {Obs} (y : list Obs) c cutoff :
  first_train_length c ≤ cutoff →
  cutoff + horizon_length c ≤ length y →
  indexable y (window_at c cutoff).
Proof.
  intros Hfirst Hfit. unfold indexable, window_at, first_train_length in *.
  destruct (iloc_positions y cutoff (horizon_length c)) as [y_test Hte]; [lia|].
  destruct (kind c); simpl; rewrite Hte.
  - destruct (iloc_positions y (cutoff - window_length c) (window_length c))
      as [y_train ->]; [lia|]. by eexists _, _.
  - destruct (iloc_positions y (cutoff - window_length c) (window_length c))
      as [y_train ->]; [lia|]. by eexists _, _.
  - destruct (iloc_positions y 0 cutoff) as [y_train ->]; [lia|].
    by eexists _, _.
  - destruct (iloc_positions y 0 cutoff) as [y_train ->]; [lia|].
    by eexists _, _.
Qed.

(** The generated windows are inside the series. *)
Lemma windows_from_indexable {Obs} (y : list Obs) c fuel cutoff :
  first_train_length c ≤ cutoff →
  Forall (indexable y) (windows_from c (length y) fuel cutoff).
Proof.
  revert cutoff. induction fuel as [|fuel IH]; intros cutoff Hfirst; simpl;
    [by constructor|].
  destruct (Nat.leb_spec (cutoff + horizon_length c) (length y));
    [|by constructor].
  constructor; [by apply window_at_indexable | apply IH; lia].
Qed.

Lemma generate_indexable {Obs} (y : list Obs) c ws :
  generate (length y) c = Ok ws → Forall (indexable y) ws.
Proof.
  unfold generate. case_match; [done|]. intros [= <-].
  by apply windows_from_indexable.
Qed.

End SplitterFacts.

(** ** The log of a grid search that returns *)

Section GridLogFacts.

Import ForecastingGridSearchCV.

Context {F Obs FH Params Pred Score : Type}.
Context `{!Forecaster F Obs FH Params Pred}.
Variable np_mean : ndarray Score → Score.

Abbreviation St := (state F Obs FH Params Pred).
Abbreviation GS := (ForecastingGridSearchCV.t Obs Params Pred Score).
Implicit Types (s : St) (l : loc) (y : list Obs) (fh : FH) (self : GS)
  (ws : list window).

Lemma eval_windows_indexable l y fh scoring ws s s' (scs : list Score) :
  eval_windows l y fh scoring ws s = (s', Ok scs) →
  Forall (indexable y) ws.
Proof.
  unfold eval_windows. revert s s' scs.
  induction ws as [|w ws IH]; intros s s' scs; simpl; [by constructor|].
  intros (s1 & v & Hv & (s2 & vs' & Hvs & _)%bind_ok)%bind_ok.
  constructor; [|by eapply IH].
  apply eval_window_ok in Hv
    as (y_train & y_test & ? & ? & ? & ? & ? & Htr & Hte & _).
  by exists y_train, y_test.
Qed.

(** What the body of the loop did for a configuration whose mean it
    reached, as a log. *)
Lemma eval_params_run self y fh c ws params s s' (m : Score) :
  cv self = Some c → split c y = Ok ws →
  eval_params np_mean self y fh params s = (s', Ok m) →
  length (heap s') = length (heap s) + 1 ∧
  Forall (indexable y) ws ∧
  ∃ preds, length preds = length ws ∧
    log s' = log s ++ config_events (forecaster self) (length (heap s))
                        y fh params ws preds.
Proof.
  intros Hcv Hws (f & f' & f'' & scores & _ & _ & _ & Hev & _)%eval_params_ok.
  rewrite Hcv in Hev.
  pose proof (evaluate_touches _ _ _ _ _ _ _ _ _ Hev) as [Hlen _].
  apply evaluate_ok_inv in Hev as (n & ws' & scs & _ & Hws' & _ & Hm & _).
  assert (ws' = ws) as -> by congruence.
  split_and!.
  - simpl in Hlen. by rewrite Hlen, length_app.
  - by eapply eval_windows_indexable.
  - apply eval_windows_log in Hm as (preds & Hpreds & Hlog). simpl in Hlog.
    exists preds. split; [done|].
    unfold config_events. by rewrite Hlog, <- app_assoc.
Qed.

Lemma mapM_eval_params_log self y fh c ws grid s s' (ms : list Score) :
  cv self = Some c → split c y = Ok ws →
  mapM (eval_params np_mean self y fh) grid s = (s', Ok ms) →
  (grid ≠ [] → Forall (indexable y) ws) ∧
  ∃ predss, length predss = length grid ∧
    Forall (λ preds, length preds = length ws) predss ∧
    log s' = log s ++ grid_events (forecaster self) (length (heap s)) y fh ws
                        (zip grid predss).
Proof.
  intros Hcv Hws. revert s ms.
  induction grid as [|p grid IH]; intros s ms; simpl.
  - unfold ret. intros [= <- _]. split; [done|].
    exists []. split_and!; [done | by constructor |].
    by rewrite app_nil_r.
  - intros (s1 & v & Hv & (s2 & vs' & Hvs & Hr)%bind_ok)%bind_ok.
    unfold ret in Hr. injection Hr as <- _.
    destruct (eval_params_run _ _ _ _ _ _ _ _ _ Hcv Hws Hv)
      as (Hlen & Hidx & preds & Hpreds & Hlog).
    destruct (IH _ _ Hvs) as (_ & predss & Hpredss & Hall & Hlog').
    split; [done|].
    exists (preds :: predss). split_and!.
    + simpl. by f_equal.
    + by constructor.
    + rewrite Hlog', Hlog, <- app_assoc. f_equal.
      unfold grid_events. simpl. rewrite Nat.add_0_r, Hlen.
      do 4 f_equal.
      apply imap_ext. intros i run _. simpl. f_equal. lia.
Qed.

End GridLogFacts.

(** ** When [evaluate] returns *)

Section ReturnFacts.

Context {F Obs FH Params Pred Score : Type}.
Context `{!Forecaster F Obs FH Params Pred}.

Abbreviation St := (state F Obs FH Params Pred).
Implicit Types (s : St) (l : loc) (y : list Obs) (fh : FH)
  (ws : list window).

(** The windows are all scored when their positions are in the series and
    the calls on them return. *)
Lemma eval_windows_returns l y fh (score : Scoring Obs Pred Score) ws s :
  is_Some (heap s !! l) →
  Forall (λ w : window, ∃ y_train y_test,
            iloc y w.1 = Ok y_train ∧ iloc y w.2 = Ok y_test ∧
            ∀ f, (fit_m f y_train fh).2 = Ok tt) ws →
  (∀ f y_train f1, fit_m f y_train fh = (f1, Ok tt) →
     ∃ y_pred, (predict_m f1).2 = Ok y_pred) →
  (∀ y_test y_pred, ∃ sc, score y_test y_pred = Ok sc) →
  ∃ s' scs, eval_windows l y fh (Some score) ws s = (s', Ok scs).
Proof.
  intros Hl Hws Hpred Hscore. revert s Hl.
  induction Hws as [|w ws (y_train & y_test & Htr & Hte & Hfit) _ IH];
    intros s [f Hf].
  - by exists s, [].
  - specialize (Hfit f).
    destruct (fit_m f y_train fh) as [f1 r] eqn:Hfit1. simpl in Hfit. subst r.
    destruct (Hpred _ _ _ Hfit1) as [y_pred Hp].
    destruct (predict_m f1) as [f2 r] eqn:Hp1. simpl in Hp. subst r.
    destruct (Hscore y_test y_pred) as [sc Hsc].
    assert (eval_window l y fh (Some score) w s
            = (mkState (<[l := f2]> (<[l := f1]> (heap s)))
                 (log s ++ [EFit l y_train fh; EPredict l;
                            EScore y_test y_pred]), Ok sc)) as Hw.
    { apply eval_window_ok.
      by exists y_train, y_test, f, f1, f2, y_pred, score. }
    destruct (IH (mkState (<[l := f2]> (<[l := f1]> (heap s)))
                    (log s ++ [EFit l y_train fh; EPredict l;
                               EScore y_test y_pred])))
      as (s' & scs & Hrest).
    { exists f2. simpl. apply list_lookup_insert_eq.
      rewrite length_insert. by eapply lookup_lt_Some. }
    exists s', (sc :: scs). unfold eval_windows in *. simpl.
    by rewrite (bind_step _ _ _ _ _ Hw), (bind_step _ _ _ _ _ Hrest).
Qed.

Lemma evaluate_returns l y fh cv strategy (score : Scoring Obs Pred Score)
    n ws s :
  get_n_splits cv y = Ok (Z.of_nat n) →
  split cv y = Ok ws →
  length ws ≤ n →
  is_Some (heap s !! l) →
  Forall (λ w : window, ∃ y_train y_test,
            iloc y w.1 = Ok y_train ∧ iloc y w.2 = Ok y_test ∧
            ∀ f, (fit_m f y_train fh).2 = Ok tt) ws →
  (∀ f y_train f1, fit_m f y_train fh = (f1, Ok tt) →
     ∃ y_pred, (predict_m f1).2 = Ok y_pred) →
  (∀ y_test y_pred, ∃ sc, score y_test y_pred = Ok sc) →
  ∃ s' scs,
    evaluate l y fh (Some cv) strategy (Some score) s
    = (s', Ok ((Some <$> scs) ++ replicate (n - length ws) None)) ∧
    length scs = length ws.
Proof.
  intros Hn Hsplit Hle Hl Hws Hpred Hscore.
  destruct (eval_windows_returns l y fh score ws s Hl Hws Hpred Hscore)
    as (s' & scs & Hm).
  exists s', scs.
  rewrite (evaluate_fits l y fh cv strategy (Some score) n ws s Hn Hsplit Hle).
  rewrite (bind_step _ _ _ _ _ Hm). split; [done|].
  by eapply mapM_length.
Qed.

(** A callable that returns and whose value converts to a cell. *)
Lemma float_scoring_returns {Value} (to_float64 : Value → result Score)
    (f : list Obs → Pred → result Value) :
  (∀ y_test y_pred, ∃ v x, f y_test y_pred = Ok v ∧ to_float64 v = Ok x) →
  ∀ y_test y_pred, ∃ sc, float_scoring to_float64 f y_test y_pred = Ok sc.
Proof.
  intros Hf y_test y_pred. destruct (Hf y_test y_pred) as (v & x & Hv & Hx).
  exists x. unfold float_scoring. by rewrite Hv.
Qed.

End ReturnFacts.

(** * The claims *)

(** ** The example forecasters *)

Lemma mean_forecaster_fit_resets :
  fit_resets (F:=MeanForecaster.t) (Obs:=Z) (FH:=nat)
    (Params:=list (string * Z)) (Pred:=Z).
Proof.
  split.
  - intros f y_train fh y_train' fh'. by destruct y_train, y_train'.
  - intros f y_train fh. unfold predict_m. simpl. unfold MeanForecaster.predict.
    by destruct (MeanForecaster.seen f).
Qed.

Section EvaluateClaims.

Context {F Obs FH Params Pred Score : Type}.
Context `{!Forecaster F Obs FH Params Pred}.

Abbreviation St := (state F Obs FH Params Pred).
Implicit Types (s : St) (l : loc) (y : list Obs) (fh : FH) (cv : CV Obs)
  (scoring : option (Scoring Obs Pred Score)) (ws : list window).

(** [strategy] is an argument that [evaluate] never reads. *)
Lemma evaluate_strategy_irrelevant l y fh (cv : option (CV Obs)) strategy
    strategy' scoring s :
  evaluate l y fh cv strategy scoring s = evaluate l y fh cv strategy' scoring s.
Proof. done. Qed.

(** A run of [evaluate] that returns called [fit] once per window and never
    called [update]. *)
Lemma evaluate_n_fits l y fh cv strategy scoring ws s s' (scores : ndarray Score) :
  split cv y = Ok ws →
  evaluate l y fh (Some cv) strategy scoring s = (s', Ok scores) →
  n_fits (log s') = n_fits (log s) + length ws ∧
  n_updates (log s') = n_updates (log s).
Proof.
  intros Hws (n & ws' & scs & _ & Hws' & _ & Hm & _)%evaluate_ok_inv.
  assert (ws' = ws) as -> by congruence.
  split; [by eapply eval_windows_n_fits | by eapply eval_windows_n_updates].
Qed.

(** Claim C1 (amended).  [evaluate] works on the one forecaster instance it
    was given: for every window in order it calls [fit] on that instance
    with the train subset, then [predict], then scores against the test
    subset.  When [fit] discards what earlier calls left in the forecaster,
    the score of window [i] is the score that the window gets on its own
    from the initial state, whatever windows came before it. *)
Theorem evaluate_windows_independent_when_fit_resets
    l y fh cv strategy scoring ws s s' (scores : ndarray Score) :
  fit_resets →
  split cv y = Ok ws →
  evaluate l y fh (Some cv) strategy scoring s = (s', Ok scores) →
  (∃ preds, length preds = length ws ∧
     log s' = log s ++ concat (zip_with (window_events l y fh) ws preds)) ∧
  ∀ i w, ws !! i = Some w →
    ∃ s1 sc, eval_window l y fh scoring w s = (s1, Ok sc) ∧
             scores !! i = Some (Some sc).
Proof.
  intros Hres Hws (n & ws' & scs & _ & Hws' & Hle & Hm & ->)%evaluate_ok_inv.
  assert (ws' = ws) as -> by congruence.
  split; [by eapply eval_windows_log|].
  intros i w Hw.
  destruct (eval_windows_forecaster l y fh scoring ws s s' scs Hm) as [f Hf].
  { intros ->. by rewrite lookup_nil in Hw. }
  destruct (eval_windows_refit l y fh scoring ws s s f f s' scs Hres Hf Hf
              ltac:(done) Hm i w Hw) as (t' & sc & Ht' & Hsc).
  exists t', sc. split; [done|].
  rewrite lookup_app_l by (rewrite length_fmap; by eapply lookup_lt_Some).
  by rewrite list_lookup_fmap, Hsc.
Qed.

(** Claim C4 (amended).  There is no [fail_fast] option and no error record:
    when the iteration of a window raises, in [fit], in [predict], in the
    scoring or in the indexing of the series, [evaluate] raises that
    exception in the state of that moment, and no later window is
    processed. *)
Theorem evaluate_aborts_on_first_failure
    l y fh cv strategy scoring n pre w post s s1 s2 (scs : list Score) e :
  get_n_splits cv y = Ok (Z.of_nat n) →
  split cv y = Ok (pre ++ w :: post) →
  length pre ≤ n →
  eval_windows l y fh scoring pre s = (s1, Ok scs) →
  eval_window l y fh scoring w s1 = (s2, Raise e) →
  evaluate l y fh (Some cv) strategy scoring s = (s2, Raise e).
Proof.
  intros Hn Hws Hle Hpre Hw. unfold evaluate.
  unfold bind at 1, lift. rewrite Hn.
  unfold bind at 1. rewrite np_empty_of_nat.
  unfold bind at 1. rewrite Hws.
  rewrite eval_loop_enum.
  eapply enum_loop_raise; [|done..].
  rewrite length_replicate. lia.
Qed.

(** Claim C10.  With [n] the value of [cv.get_n_splits(y)] and [ws] the
    pairs of [cv.split(y)]: when [ws] has at most [n] pairs no write is out
    of bounds and the array returned has length [n], its cells after the
    last window never written; when [ws] has more than [n] pairs the write
    of pair [n] raises [IndexError], once the calls for the pairs up to it
    have returned; and [evaluate] returns only in the first case. *)
Theorem evaluate_scores_array_bounds l y fh cv strategy scoring n ws s :
  get_n_splits cv y = Ok (Z.of_nat n) →
  split cv y = Ok ws →
  (length ws ≤ n →
   evaluate l y fh (Some cv) strategy scoring s
   = (scs <- eval_windows l y fh scoring ws;;
      ret ((Some <$> scs) ++ replicate (n - length ws) None)) s) ∧
  (n < length ws →
   ∀ s' (scs : list Score),
     eval_windows l y fh scoring (take (S n) ws) s = (s', Ok scs) →
     evaluate l y fh (Some cv) strategy scoring s = (s', Raise IndexError)) ∧
  (∀ s' (scores : ndarray Score),
     evaluate l y fh (Some cv) strategy scoring s = (s', Ok scores) →
     length ws ≤ n ∧ length scores = n ∧
     (∀ i, i < length ws → ∃ sc, scores !! i = Some (Some sc)) ∧
     (∀ i, length ws ≤ i → i < n → scores !! i = Some None)).
Proof.
  intros Hn Hws. split_and!.
  - intros Hle. by apply evaluate_fits.
  - intros Hlt s' scs Hm. by eapply evaluate_overflow.
  - intros s' scores (n' & ws' & scs & Hn' & Hws' & Hle & Hm & ->)%evaluate_ok_inv.
    assert (ws' = ws) as -> by congruence.
    assert (n' = n) as -> by (rewrite Hn in Hn'; injection Hn'; lia).
    pose proof (mapM_length _ _ _ _ _ Hm) as Hlen.
    split_and!.
    + done.
    + rewrite length_app, length_fmap, length_replicate. lia.
    + intros i Hi. destruct (lookup_lt_is_Some_2 scs i) as [sc Hsc]; [lia|].
      exists sc. rewrite lookup_app_l by (rewrite length_fmap; lia).
      by rewrite list_lookup_fmap, Hsc.
    + intros i Hi Hin. rewrite lookup_app_r by (rewrite length_fmap; lia).
      apply lookup_replicate_2. rewrite length_fmap. lia.
Qed.

End EvaluateClaims.

Section GridClaims.

Import ForecastingGridSearchCV.

Context {F Obs FH Params Pred Score : Type}.
Context `{!Forecaster F Obs FH Params Pred}.
Context `{!EqDecision Params}.
Variable np_mean : ndarray Score → Score.

Abbreviation St := (state F Obs FH Params Pred).
Abbreviation GS := (ForecastingGridSearchCV.t Obs Params Pred Score).
Implicit Types (s : St) (l : loc) (y : list Obs) (fh : FH) (self : GS).

Lemma length_cache_keys (grid : list Params) (ws : list window) :
  length (cache_keys grid ws) = length grid * length ws.
Proof.
  unfold cache_keys. induction grid as [|p grid IH]; [done|].
  rewrite bind_cons, length_app, length_fmap, IH. simpl. lia.
Qed.

Lemma length_remove_dups_le {A} `{!EqDecision A} (k : list A) :
  length (remove_dups k) ≤ length k.
Proof.
  induction k as [|x k IH]; simpl; [done|]. case_decide; simpl; lia.
Qed.

Lemma length_remove_dups_NoDup {A} `{!EqDecision A} (k : list A) :
  length (remove_dups k) = length k ↔ NoDup k.
Proof.
  induction k as [|x k IH]; simpl.
  - split; [constructor | done].
  - pose proof (length_remove_dups_le k). rewrite NoDup_cons.
    case_decide; simpl; [split; [lia | tauto]|].
    rewrite <- IH. split; [intros [=]; by split | intros [_ ->]; done].
Qed.

(** Claim C2 (amended).  There is no cache: a run of [fit] that returns has
    called [fit] on a forecaster once for every configuration of the grid
    and every window, key after key of [cache_keys], whether or not a key
    repeats.  The number of calls is the product of the number of
    configurations and the number of windows; the number of distinct keys is
    at most that, and equal to it exactly when no key repeats.  The calls
    are those of [grid_events]: configuration [i] gets the [i]-th new
    object of the store, cloned from the template and given the parameters
    of the configuration, and on that object every window in order gets one
    [fit] on its train subset, one [predict] and one score against its test
    subset; nothing else is called. *)
Theorem fit_fits_every_configuration_on_every_window {XT}
    self c y fh (X : option XT) ws s s' (r : GS) :
  cv self = Some c → split c y = Ok ws →
  fit np_mean self y fh X s = (s', Ok r) →
  let keys := cache_keys (param_grid self) ws in
  n_fits (log s') = n_fits (log s) + length (param_grid self) * length ws ∧
  length keys = length (param_grid self) * length ws ∧
  length (remove_dups keys) ≤ length (param_grid self) * length ws ∧
  (length (remove_dups keys) = length (param_grid self) * length ws
   ↔ NoDup keys) ∧
  (param_grid self ≠ [] → Forall (indexable y) ws) ∧
  ∃ predss, length predss = length (param_grid self) ∧
    Forall (λ preds, length preds = length ws) predss ∧
    log s' = log s ++ grid_events (forecaster self) (length (heap s)) y fh ws
                        (zip (param_grid self) predss).
Proof.
  intros Hcv Hws Hfit keys.
  assert (∃ ms, mapM (eval_params np_mean self y fh) (param_grid self) s
                = (s', Ok ms)) as [means Hmap].
  { unfold fit in Hfit. apply bind_ok in Hfit as (s1 & a & Ha & Hr).
    unfold ret in Hr. injection Hr as <- _.
    rewrite fit_cv_results_mapM in Ha.
    apply bind_ok in Ha as (s2 & ms & Hm & Hr).
    unfold ret in Hr. injection Hr as <- _. by exists ms. }
  destruct (mapM_eval_params_log np_mean _ _ _ _ _ _ _ _ _ Hcv Hws Hmap)
    as [Hidx Hlog].
  split_and!; [| | | | exact Hidx | exact Hlog].
  - unfold fit in Hfit. apply bind_ok in Hfit as (s1 & a & Ha & Hr).
    unfold ret in Hr. injection Hr as <- _.
    rewrite fit_cv_results_mapM in Ha.
    apply bind_ok in Ha as (s2 & ms & Hm & Hr).
    unfold ret in Hr. injection Hr as <- _.
    eapply (mapM_count (λ s, n_fits (log s)) (length ws)) in Hm;
      [simpl in Hm; lia|].
    intros p t t' m Hp. by eapply eval_params_n_fits.
  - apply length_cache_keys.
  - rewrite <- length_cache_keys. apply length_remove_dups_le.
  - rewrite <- length_cache_keys. apply length_remove_dups_NoDup.
Qed.

(** Claim C7 (amended).  The loop of [fit] goes through [param_grid] in
    order; for each configuration it clones the template, sets the
    parameters on the clone, calls [evaluate] on the clone with the [cv],
    [strategy] and [scoring] of [self] (no cache is passed, and every call
    runs [cv.split] again), and writes the mean of the scores to the cell of
    that configuration: cell [i] of [cv_results] holds the mean for
    configuration [i]. *)
Theorem fit_cv_results_in_grid_order self y fh s :
  fit_cv_results np_mean self y fh s
  = (means <- mapM (λ params,
                      forecaster <- clone (forecaster self);;
                      call_set_params forecaster params;;
                      scores <- evaluate forecaster y fh (cv self)
                                  (strategy self) (scoring self);;
                      ret (np_mean scores))
                (param_grid self);;
     ret (Some <$> means)) s.
Proof. apply fit_cv_results_mapM. Qed.

(** Claim C9.  [fit] applies the parameters to clones only: whatever its
    outcome, the template [self.forecaster] is in the store as it was, and
    when [fit] returns it returns [self]. *)
Theorem fit_leaves_template_unchanged {XT} self y fh (X : option XT) s :
  heap (fit np_mean self y fh X s).1 !! forecaster self
  = heap s !! forecaster self ∧
  ((fit np_mean self y fh X s).2 = Ok self ∨
   ∃ e, (fit np_mean self y fh X s).2 = Raise e).
Proof.
  destruct (fit np_mean self y fh X s) as [s' r] eqn:Hfit. simpl.
  destruct (fit_preserves _ _ _ _ _ _ _ _ Hfit) as [[_ Hold] Hr].
  split; [|done].
  destruct (heap s !! forecaster self) as [f|] eqn:Hf.
  - rewrite <- Hf. apply Hold. by eapply lookup_lt_Some.
  - pose proof (fit_dangling np_mean self y fh X s Hf) as Hs.
    rewrite Hfit in Hs. simpl in Hs. by rewrite Hs.
Qed.

End GridClaims.

Section SplitterClaims.

Import WindowSplitter.

Context {F Obs FH Params Pred Score Value : Type}.
Context `{!Forecaster F Obs FH Params Pred}.

(** Claim C6.  For every strategy and every valid parameter combination on
    a series long enough for one window, the number of splits that the
    splitter reports is the number of windows it generates, so [evaluate]
    scores every generated window and returns one score per window: the
    windows are inside the series, and when the forecaster is in the store,
    [fit] returns on the train subsets, [predict] returns after a [fit]
    that returned and the scoring returns a value that converts to
    [float64], [evaluate] returns an array with one written score per
    generated window and no other cell. *)
Theorem n_splits_is_number_of_windows
    (c : split_config) (l : loc) (y : list Obs) (fh : FH) (strategy : string)
    (scoring : option (Scoring Obs Pred Score))
    (s : state F Obs FH Params Pred) :
  valid c →
  first_train_length c + horizon_length c ≤ length y →
  ∃ ws,
    split (to_cv c) y = Ok ws ∧
    get_n_splits (to_cv c) y = Ok (Z.of_nat (length ws)) ∧
    evaluate l y fh (Some (to_cv c)) strategy scoring s
    = (scs <- eval_windows l y fh scoring ws;; ret (Some <$> scs)) s ∧
    (∀ s' (scores : ndarray Score),
       evaluate l y fh (Some (to_cv c)) strategy scoring s = (s', Ok scores) →
       ∃ scs, scores = Some <$> scs ∧ length scs = length ws) ∧
    Forall (indexable y) ws ∧
    ∀ (f : list Obs → Pred → result Value)
      (to_float64 : Value → result Score),
      is_Some (heap s !! l) →
      Forall (λ w : window, ∀ y_train g,
                iloc y w.1 = Ok y_train → (fit_m g y_train fh).2 = Ok tt) ws →
      (∀ g y_train g1, fit_m g y_train fh = (g1, Ok tt) →
         ∃ y_pred, (predict_m g1).2 = Ok y_pred) →
      (∀ y_test y_pred, ∃ v x,
         f y_test y_pred = Ok v ∧ to_float64 v = Ok x) →
      ∃ s' scs,
        evaluate l y fh (Some (to_cv c)) strategy
          (Some (float_scoring to_float64 f)) s
        = (s', Ok (Some <$> scs)) ∧
        length scs = length ws.
Proof.
  intros Hv Hlen.
  destruct (generate_n_splits c (length y) Hv Hlen) as (ws & Hgen & Hn).
  pose proof (generate_indexable y c ws Hgen) as Hidx.
  assert (get_n_splits (to_cv (Obs:=Obs) c) y = Ok (Z.of_nat (length ws))) as Hn'.
  { simpl. by rewrite Hn. }
  assert (evaluate l y fh (Some (to_cv c)) strategy scoring s
          = (scs <- eval_windows l y fh scoring ws;; ret (Some <$> scs)) s)
    as Heq.
  { rewrite (evaluate_fits l y fh (to_cv c) strategy scoring (length ws) ws s
               Hn' Hgen ltac:(done)).
    unfold bind, ret. destruct (eval_windows _ _ _ _ _ _) as [s1 [scs|e]]; [|done].
    by rewrite Nat.sub_diag, app_nil_r. }
  exists ws. split_and!; try done.
  - intros s' scores Hev. rewrite Heq in Hev.
    apply bind_ok in Hev as (s1 & scs & Hm & Hr).
    unfold ret in Hr. injection Hr as _ <-.
    exists scs. split; [done|]. by eapply mapM_length.
  - intros f to_float64 Hl Hfit Hpred Hscore.
    destruct (evaluate_returns l y fh (to_cv c) strategy
                (float_scoring to_float64 f) (length ws) ws s Hn' Hgen
                ltac:(done) Hl) as (s' & scs & Hev & Hscs).
    + apply Forall_forall. intros w Hw.
      destruct (proj1 (Forall_forall _ _) Hidx w Hw)
        as (y_train & y_test & Htr & Hte).
      exists y_train, y_test. split_and!; [done | done |].
      intros g. by apply (proj1 (Forall_forall _ _) Hfit w Hw).
    + done.
    + by apply float_scoring_returns.
    + exists s', scs. by rewrite Hev, Nat.sub_diag, app_nil_r.
Qed.

End SplitterClaims.

(** ** The claims on the examples *)

Section Examples.

Import Scenario.
Import MeanForecaster (abs_error, mean).

(** Claim C1, as stated, fails: with a warm-start forecaster the second
    window scores 3 in the run and 5 on its own, since [evaluate] calls
    [fit] on the instance the first window left behind. *)
Lemma warm_start_score_depends_on_earlier_window :
  (evaluate 0 series 1 (Some (fixed_cv 2 [w0; w1])) "refit" (Some abs_error)
     warm_store).2 = Ok [Some 5%Z; Some 3%Z] ∧
  (eval_window 0 series 1 (Some abs_error) w1 warm_store).2 = Ok 5%Z.
Proof. split; vm_compute; reflexivity. Qed.

(** The mean forecaster resets on [fit]: the second window scores in the
    run what it scores on its own. *)
Lemma evaluate_windows_independent_witness :
  ∃ s1 sc, eval_window 0 series 1 (Some abs_error) w1 store = (s1, Ok sc) ∧
           [Some 5%Z; Some 5%Z] !! 1 = Some (Some sc).
Proof.
  refine (proj2 (evaluate_windows_independent_when_fit_resets
    0 series 1 (fixed_cv 2 [w0; w1]) "refit" (Some abs_error) [w0; w1] store
    (evaluate 0 series 1 (Some (fixed_cv 2 [w0; w1])) "refit"
       (Some abs_error) store).1
    [Some 5%Z; Some 5%Z] mean_forecaster_fit_resets _ _) 1 w1 _).
  - reflexivity.
  - vm_compute; reflexivity.
  - reflexivity.
Defined.

(** Claim C2, as stated, fails: on a grid that lists one configuration
    twice, over two windows, [fit] is called four times for two distinct
    keys. *)
Lemma repeated_configuration_is_fitted_again :
  n_fits (log (ForecastingGridSearchCV.fit mean repeated_grid series 1
                 (@None unit) store).1) = 4 ∧
  length (remove_dups
            (cache_keys (ForecastingGridSearchCV.param_grid repeated_grid)
               [w0; w1])) = 2.
Proof. split; vm_compute; reflexivity. Qed.

Lemma fit_fits_every_configuration_witness :
  n_fits (log (ForecastingGridSearchCV.fit mean repeated_grid series 1
                 (@None unit) store).1)
  = n_fits (log store)
    + length (ForecastingGridSearchCV.param_grid repeated_grid)
      * length [w0; w1].
Proof.
  refine (proj1 (fit_fits_every_configuration_on_every_window mean
    repeated_grid (fixed_cv 2 [w0; w1]) series 1 (@None unit) [w0; w1] store
    _ repeated_grid _ _ _)).
  - reflexivity.
  - reflexivity.
  - vm_compute; reflexivity.
Defined.

(** Claim C3, on the code: with [strategy = "update"] and two windows,
    [evaluate] calls [fit] for both windows and [update] for none, as it
    does with [strategy = "refit"]. *)
Theorem update_strategy_fits_every_window :
  let run := evaluate 0 series 1 (Some (fixed_cv 2 [w0; w1])) "update"
               (Some abs_error) store in
  run.2 = Ok [Some 5%Z; Some 5%Z] ∧
  List.filter is_fit (log run.1)
  = [EFit 0 [10; 0]%Z 1; EFit 0 [0; 0]%Z 1] ∧
  n_updates (log run.1) = 0 ∧
  run = evaluate 0 series 1 (Some (fixed_cv 2 [w0; w1])) "refit"
          (Some abs_error) store.
Proof. split_and!; vm_compute; reflexivity. Qed.

(** Claim C4, as stated, fails: [fit] raises on the first of two windows
    and [evaluate] raises with it; nothing is recorded and the second
    window is never fitted. *)
Lemma first_window_failure_aborts_evaluate :
  evaluate (Score:=Z) 0 series 1 (Some (fixed_cv 2 [w_empty; w1])) "refit"
    (Some abs_error) store
  = (mkState [MeanForecaster.mk 0 None] [EFit 0 [] 1], Raise ValueError).
Proof. vm_compute; reflexivity. Qed.

Lemma evaluate_aborts_on_first_failure_witness :
  evaluate (Score:=Z) 0 series 1 (Some (fixed_cv 3 [w0; w_empty; w1])) "refit"
    (Some abs_error) store
  = (mkState [MeanForecaster.mk 0 (Some [10; 0]%Z)]
       [EFit 0 [10; 0]%Z 1; EPredict 0; EScore [0%Z] 5%Z; EFit 0 [] 1],
     Raise ValueError).
Proof.
  refine (evaluate_aborts_on_first_failure 0 series 1
    (fixed_cv 3 [w0; w_empty; w1]) "refit" (Some abs_error) 3
    [w0] w_empty [w1] store
    (mkState [MeanForecaster.mk 0 (Some [10; 0]%Z)]
       [EFit 0 [10; 0]%Z 1; EPredict 0; EScore [0%Z] 5%Z])
    _ [5%Z] ValueError _ _ _ _ _).
  - reflexivity.
  - reflexivity.
  - simpl; lia.
  - vm_compute; reflexivity.
  - vm_compute; reflexivity.
Defined.

(** Claim C5, on the code: on a series of length 50 split with an initial
    window of 20, step 5 and horizon 5, [evaluate] with
    [strategy = "refit"] raises nothing and returns the six scores. *)
Theorem refit_on_initial_window_split_is_accepted :
  (evaluate 0 (ramp 50) 5
     (Some (WindowSplitter.to_cv initial_window_config)) "refit"
     (Some abs_error) store).2
  = Ok [Some 65; Some 75; Some 90; Some 100; Some 115; Some 125]%Z.
Proof. vm_compute; reflexivity. Qed.

(** Series of length 100 in blocks of 20 and 5: the hypotheses hold, the
    splitter reports four splits and [evaluate] returns four scores. *)
Lemma n_splits_is_number_of_windows_witness :
  WindowSplitter.valid blocked_config ∧
  WindowSplitter.first_train_length blocked_config
    + WindowSplitter.horizon_length blocked_config ≤ length (ramp 100) ∧
  get_n_splits (WindowSplitter.to_cv blocked_config) (ramp 100) = Ok 4%Z ∧
  ∃ s' scs,
    evaluate 0 (ramp 100) 5 (Some (WindowSplitter.to_cv blocked_config))
      "refit" (Some (float_scoring Scenario2.to_float64 abs_error)) store
    = (s', Ok (Some <$> scs)) ∧
    length scs = 4.
Proof.
  assert (WindowSplitter.valid blocked_config) as Hv
    by (unfold WindowSplitter.valid; simpl; lia).
  assert (WindowSplitter.first_train_length blocked_config
          + WindowSplitter.horizon_length blocked_config ≤ length (ramp 100))
    as Hlen by (vm_compute; lia).
  destruct (n_splits_is_number_of_windows (Value:=Z) blocked_config 0
              (ramp 100) 5 "refit" (Some abs_error) store Hv Hlen)
    as (ws & Hsplit & Hn & _ & _ & _ & Hret).
  vm_compute in Hsplit. injection Hsplit as <-.
  split_and!; [done | done | exact Hn |].
  apply (Hret abs_error Scenario2.to_float64).
  - by eexists.
  - repeat constructor; intros y_train g Hy; vm_compute in Hy;
      injection Hy as <-; reflexivity.
  - intros g y_train g1 Hfit. destruct y_train as [|v y_train].
    + discriminate Hfit.
    + injection Hfit as <-. eexists. reflexivity.
  - intros y_test y_pred. eexists _, _. split; reflexivity.
Defined.

(** Claim C7, as stated, fails: no cache is shared between the calls of
    [evaluate].  On a grid that lists one configuration twice the second
    call fits the train set that the first call fitted for the same
    configuration. *)
Lemma second_evaluation_refits_same_key :
  log (ForecastingGridSearchCV.fit_cv_results mean repeated_grid_one_window
         series 1 store).1
  = [EClone 0 1; ESetParams 1 [("offset", 1%Z)];
     EFit 1 [10; 0]%Z 1; EPredict 1; EScore [0%Z] 6%Z;
     EClone 0 2; ESetParams 2 [("offset", 1%Z)];
     EFit 2 [10; 0]%Z 1; EPredict 2; EScore [0%Z] 6%Z].
Proof. vm_compute; reflexivity. Qed.

(** Claim C8, on the code: two configurations tie with mean score 1;
    [fit] returns [self] as it was, and selects neither. *)
Theorem fit_selects_no_configuration :
  (ForecastingGridSearchCV.fit_cv_results mean tie_grid tie_series 1 store).2
  = Ok [Some 1%Z; Some 1%Z] ∧
  (ForecastingGridSearchCV.fit mean tie_grid tie_series 1 (@None unit)
     store).2 = Ok tie_grid.
Proof. split; vm_compute; reflexivity. Qed.

Lemma evaluate_scores_array_bounds_witness :
  evaluate (Score:=Z) 0 series 1 (Some (fixed_cv 3 [w0; w1])) "refit"
    (Some abs_error) store
  = (scs <- eval_windows 0 series 1 (Some abs_error) [w0; w1];;
     ret ((Some <$> scs) ++ replicate (3 - length [w0; w1]) None)) store.
Proof.
  refine (proj1 (evaluate_scores_array_bounds 0 series 1
    (fixed_cv 3 [w0; w1]) "refit" (Some abs_error) 3 [w0; w1] store _ _) _).
  - reflexivity.
  - reflexivity.
  - simpl; lia.
Defined.

(** The two ways a splitter can break its announcement, on the example. *)
Lemma evaluate_underfull_and_overfull :
  (evaluate 0 series 1 (Some (fixed_cv 3 [w0; w1])) "refit" (Some abs_error)
     store).2 = Ok [Some 5%Z; Some 5%Z; None] ∧
  (evaluate (Score:=Z) 0 series 1 (Some (fixed_cv 1 [w0; w1])) "refit"
     (Some abs_error) store).2 = Raise IndexError.
Proof. split; vm_compute; reflexivity. Qed.

End Examples.

(** * Further properties of [evaluate] *)

Section EvaluateCalls.

Context {F Obs FH Params Pred Score : Type}.
Context `{!Forecaster F Obs FH Params Pred}.

Abbreviation St := (state F Obs FH Params Pred).
Abbreviation Ev := (event Obs FH Params Pred).
Implicit Types (s t : St) (l : loc) (y : list Obs) (fh : FH)
  (scoring : option (Scoring Obs Pred Score)) (ws : list window)
  (evs : list Ev).

Lemma protocol_run_app l ph evs evs' :
  protocol_run l ph (evs ++ evs')
  = protocol_run l ph evs ≫= λ ph', protocol_run l ph' evs'.
Proof.
  revert ph. induction evs as [|e evs IH]; intros ph; simpl; [done|].
  destruct (protocol_step l ph e); [apply IH | done].
Qed.

#[local] Ltac accept_calls :=
  simpl; rewrite <- ?app_assoc; unfold protocol_step;
  rewrite ?Nat.eqb_refl; by split_and!.

(** The events of a loop, from the events of its iterations: [Pok] holds of
    the events of an iteration that returns, [Pany] of the events of any
    iteration, and [Inv] is kept by the iterations. *)
Lemma enum_loop_events {A V} (Pok Pany : list Ev → Prop) (Inv : St → Prop)
    (body : A → M St V) xs i arr s s' r :
  Pok [] →
  (∀ evs, Pok evs → Pany evs) →
  (∀ evs evs', Pok evs → Pany evs' → Pany (evs ++ evs')) →
  (∀ evs evs', Pok evs → Pok evs' → Pok (evs ++ evs')) →
  (∀ x s s' r, Inv s → body x s = (s', r) →
     Inv s' ∧ ∃ evs, log s' = log s ++ evs ∧ Pany evs ∧
                     (∀ v, r = Ok v → Pok evs)) →
  Inv s → enum_loop body i xs arr s = (s', r) →
  Inv s' ∧ ∃ evs, log s' = log s ++ evs ∧ Pany evs ∧
                  (∀ v, r = Ok v → Pok evs).
Proof.
  intros Hnil Hsub Happ Happ' Hbody. revert i arr s.
  induction xs as [|x xs IH]; intros i arr s Hinv; simpl.
  - unfold ret. intros [= <- <-]. split; [done|].
    exists []. rewrite app_nil_r. eauto.
  - intros [(s1 & v & Hv & Hrest)|(e & Hv & ->)]%bind_inv.
    + destruct (Hbody _ _ _ _ Hinv Hv) as (Hinv1 & evs1 & Hlog1 & _ & Hok1).
      specialize (Hok1 v eq_refl).
      apply bind_inv in Hrest as [(s2 & a & Ha & Hloop)|(e & Ha & ->)].
      * unfold lift in Ha. injection Ha as <- _.
        destruct (IH _ _ _ Hinv1 Hloop) as (Hinv' & evs2 & Hlog2 & Hany2 & Hok2).
        split; [done|]. exists (evs1 ++ evs2).
        rewrite Hlog2, Hlog1, app_assoc. split_and!; [done | eauto | eauto].
      * unfold lift in Ha. injection Ha as <- _.
        split; [done|]. exists evs1. split_and!; [done | eauto | done].
    + destruct (Hbody _ _ _ _ Hinv Hv) as (Hinv1 & evs1 & Hlog1 & Hany1 & _).
      split; [done|]. exists evs1. split_and!; [done | done | done].
Qed.

(** The calls of one iteration, whatever its outcome. *)
Lemma eval_window_protocol l y fh scoring w s s' (r : result Score) :
  eval_window l y fh scoring w s = (s', r) →
  ∃ evs, log s' = log s ++ evs ∧
         is_Some (protocol_run l Idle evs) ∧
         (∀ v, r = Ok v → protocol_run l Idle evs = Some Idle).
Proof.
  unfold eval_window, call_fit, call_predict, call_scoring.
  unfold bind, lift, emit, invoke, raise. simpl.
  destruct (iloc y w.1) as [y_train|];
    [|intros [= <- <-]; exists []; by rewrite app_nil_r].
  destruct (iloc y w.2) as [y_test|];
    [|intros [= <- <-]; exists []; by rewrite app_nil_r].
  destruct (heap s !! l) as [f|] eqn:Hf;
    [|intros [= <- <-]; exists [EFit l y_train fh]; accept_calls].
  destruct (fit_m f y_train fh) as [f1 [[]|]]; simpl;
    [|intros [= <- <-]; exists [EFit l y_train fh]; accept_calls].
  rewrite list_lookup_insert_eq by by eapply lookup_lt_Some.
  destruct (predict_m f1) as [f2 [y_pred|]]; simpl;
    [|intros [= <- <-]; exists [EFit l y_train fh; EPredict l]; accept_calls].
  destruct scoring as [score|]; simpl;
    [|intros [= <- <-]; exists [EFit l y_train fh; EPredict l]; accept_calls].
  intros [= <- <-].
  exists [EFit l y_train fh; EPredict l; EScore y_test y_pred]. accept_calls.
Qed.

(** The calls of [evaluate], whatever its outcome. *)
Lemma evaluate_protocol l y fh cv strategy scoring s s'
    (r : result (ndarray Score)) :
  evaluate l y fh cv strategy scoring s = (s', r) →
  ∃ evs, log s' = log s ++ evs ∧
         is_Some (protocol_run l Idle evs) ∧
         (∀ v, r = Ok v → protocol_run l Idle evs = Some Idle).
Proof.
  assert (∃ evs, log s = log s ++ evs ∧
                 is_Some (protocol_run (Obs:=Obs) (FH:=FH) (Params:=Params)
                            (Pred:=Pred) l Idle evs)) as Hstay
    by (exists []; by rewrite app_nil_r).
  assert (∀ r : result (ndarray Score), (∃ e, r = Raise e) →
            ∃ evs, log s = log s ++ evs ∧
                   is_Some (protocol_run (Obs:=Obs) (FH:=FH) (Params:=Params)
                              (Pred:=Pred) l Idle evs) ∧
                   (∀ v, r = Ok v → protocol_run l Idle evs = Some Idle))
    as Hraise.
  { intros r' [e ->]. exists []. rewrite app_nil_r. by split_and!. }
  unfold evaluate. destruct cv as [cv|]; [|intros [= <- <-]; eauto].
  unfold bind at 1, lift.
  destruct (get_n_splits cv y); [|intros [= <- <-]; eauto].
  unfold bind at 1.
  destruct (np_empty _); [|intros [= <- <-]; eauto].
  unfold bind at 1.
  destruct (split cv y) as [ws|]; [|intros [= <- <-]; eauto].
  rewrite eval_loop_enum. intros Hloop.
  refine (proj2 (enum_loop_events
            (λ evs, protocol_run l Idle evs = Some Idle)
            (λ evs, is_Some (protocol_run l Idle evs))
            (λ _, True) _ _ _ _ _ _ _ _ _ _ _ _ I Hloop)); simpl.
  - done.
  - intros evs Hok. by exists Idle.
  - intros evs evs' Hok Hany. by rewrite protocol_run_app, Hok.
  - intros evs evs' Hok Hok'. by rewrite protocol_run_app, Hok.
  - intros w s1 s2 r' _ Hw. split; [done|]. by eapply eval_window_protocol.
Qed.

(** An accepted log names no forecaster but [l], and no [update]. *)
Lemma protocol_run_on_clone l ph n template evs :
  is_Some (protocol_run l ph evs) → n ≤ l →
  forallb (on_clone n template) evs = true.
Proof.
  intros Hrun Hn. revert ph Hrun.
  induction evs as [|e evs IH]; intros ph; simpl; [done|].
  destruct (protocol_step l ph e) as [ph'|] eqn:Hstep; [|by intros [? [=]]].
  intros Hrun. rewrite (IH _ Hrun), andb_true_r.
  destruct ph, e; simpl in *; try done;
    destruct (Nat.eqb_spec l0 l) as [->|]; try done; by apply Nat.leb_le.
Qed.

Lemma protocol_run_n_updates l ph evs :
  is_Some (protocol_run l ph evs) → n_updates evs = 0.
Proof.
  revert ph. induction evs as [|e evs IH]; intros ph; simpl; [done|].
  destruct (protocol_step l ph e) as [ph'|] eqn:Hstep; [|by intros [? [=]]].
  intros Hrun. specialize (IH _ Hrun).
  unfold n_updates in *. by destruct ph, e.
Qed.

(** Property X1.  Whatever its outcome, [evaluate] calls the forecaster it was given
    and no other object, in the order [fit], [predict], score for every
    window; it calls neither [update] nor [set_params] nor [clone], and
    when it returns the last window was scored. *)
Theorem evaluate_follows_call_protocol l y fh cv strategy scoring s :
  ∃ evs,
    log (evaluate (Score:=Score) l y fh cv strategy scoring s).1
    = log s ++ evs ∧
    is_Some (protocol_run l Idle evs) ∧
    n_updates evs = 0 ∧
    (∀ v, (evaluate l y fh cv strategy scoring s).2 = Ok v →
          protocol_run l Idle evs = Some Idle).
Proof.
  destruct (evaluate l y fh cv strategy scoring s) as [s' r] eqn:Hev.
  apply evaluate_protocol in Hev as (evs & Hlog & Hrun & Hok).
  exists evs. simpl. split_and!; try done.
  by eapply protocol_run_n_updates.
Qed.

(** Property X2.  Whatever its outcome, [evaluate] leaves the store with the objects
    it had: only the forecaster it was given can have changed. *)
Theorem evaluate_changes_only_its_forecaster l y fh cv strategy scoring s :
  let s' := (evaluate (Score:=Score) l y fh cv strategy scoring s).1 in
  length (heap s') = length (heap s) ∧
  ∀ l', l' ≠ l → heap s' !! l' = heap s !! l'.
Proof.
  destruct (evaluate l y fh cv strategy scoring s) as [s' r] eqn:Hev.
  by apply evaluate_touches in Hev.
Qed.

End EvaluateCalls.

Section EvaluateDependence.

Context {F Obs FH Params Pred Score : Type}.
Context `{!Forecaster F Obs FH Params Pred}.

Abbreviation St := (state F Obs FH Params Pred).
Implicit Types (s t : St) (l : loc) (y : list Obs) (fh : FH)
  (scoring : option (Scoring Obs Pred Score)) (ws : list window).

(** Two runs of a loop whose iterations keep a relation between the states
    and have the same outcome end with the same outcome. *)
Lemma enum_loop_sim {A V} (R : St → St → Prop) (body body' : A → M St V)
    xs i arr s t :
  (∀ x s t, R s t →
     (body x s).2 = (body' x t).2 ∧ R (body x s).1 (body' x t).1) →
  R s t →
  (enum_loop body i xs arr s).2 = (enum_loop body' i xs arr t).2 ∧
  R (enum_loop body i xs arr s).1 (enum_loop body' i xs arr t).1.
Proof.
  intros Hbody. revert i arr s t.
  induction xs as [|x xs IH]; intros i arr s t HR; simpl; [done|].
  unfold bind at 1 3 5 7. destruct (Hbody x s t HR) as [Hr HR'].
  destruct (body x s) as [s1 r1], (body' x t) as [t1 r2]. simpl in *.
  subst r2. destruct r1 as [v|e]; [|done].
  unfold bind, lift. destruct (setitem arr i v) as [arr'|e]; [|done].
  by apply IH.
Qed.

(** One iteration sees of the state the forecaster and nothing else. *)
Lemma eval_window_sim l l' y fh scoring w s t :
  heap s !! l = heap t !! l' →
  (eval_window (Score:=Score) l y fh scoring w s).2
  = (eval_window l' y fh scoring w t).2 ∧
  heap (eval_window (Score:=Score) l y fh scoring w s).1 !! l
  = heap (eval_window (Score:=Score) l' y fh scoring w t).1 !! l'.
Proof.
  intros Heq.
  unfold eval_window, call_fit, call_predict, call_scoring.
  unfold bind, lift, emit, invoke, raise. simpl.
  destruct (iloc y w.1) as [y_train|]; [|done].
  destruct (iloc y w.2) as [y_test|]; [|done].
  rewrite <- Heq.
  destruct (heap s !! l) as [f|] eqn:Hf; [|simpl; by rewrite Hf].
  pose proof (lookup_lt_Some _ _ _ Hf) as Hl.
  assert (l' < length (heap t)) as Hl'
    by (eapply lookup_lt_Some; symmetry; apply Heq).
  destruct (fit_m f y_train fh) as [f1 [[]|]]; simpl;
    [|by rewrite !list_lookup_insert_eq].
  rewrite !list_lookup_insert_eq by done.
  destruct (predict_m f1) as [f2 [y_pred|]]; simpl;
    [|by rewrite !list_lookup_insert_eq by by rewrite length_insert].
  destruct scoring as [score|]; simpl;
    [|by rewrite !list_lookup_insert_eq by by rewrite length_insert].
  destruct (score y_test y_pred); simpl;
    by rewrite !list_lookup_insert_eq by by rewrite length_insert.
Qed.

(** [evaluate] with a [cv], step by step. *)
Lemma evaluate_unfold l y fh cv strategy scoring s :
  evaluate (Score:=Score) l y fh (Some cv) strategy scoring s
  = match get_n_splits cv y with
    | Ok n =>
        match np_empty n with
        | Ok arr =>
            match split cv y with
            | Ok ws => enum_loop (eval_window l y fh scoring) 0 ws arr s
            | Raise e => (s, Raise e)
            end
        | Raise e => (s, Raise e)
        end
    | Raise e => (s, Raise e)
    end.
Proof.
  unfold evaluate, bind, lift.
  destruct (get_n_splits cv y); [|done].
  destruct (np_empty _); [|done].
  destruct (split cv y); [|done].
  apply eval_loop_enum.
Qed.

Lemma evaluate_sim l l' y fh cv strategy scoring s t :
  heap s !! l = heap t !! l' →
  (evaluate (Score:=Score) l y fh cv strategy scoring s).2
  = (evaluate l' y fh cv strategy scoring t).2 ∧
  heap (evaluate (Score:=Score) l y fh cv strategy scoring s).1 !! l
  = heap (evaluate (Score:=Score) l' y fh cv strategy scoring t).1 !! l'.
Proof.
  intros Heq. destruct cv as [cv|]; [|done].
  rewrite !evaluate_unfold.
  destruct (get_n_splits cv y); [|done].
  destruct (np_empty _); [|done].
  destruct (split cv y) as [ws|]; [|done].
  apply (enum_loop_sim (λ s t, heap s !! l = heap t !! l')); [|done].
  intros w s1 t1 H1. by apply eval_window_sim.
Qed.

(** Property X3.  The outcome of [evaluate], scores or exception, and the forecaster it
    leaves depend on the forecaster it was given and on nothing else in the
    state: not on where the forecaster is, not on the other objects, not on
    the calls made before. *)
Theorem evaluate_depends_on_forecaster_only
    l l' y fh cv strategy scoring s t :
  heap s !! l = heap t !! l' →
  (evaluate (Score:=Score) l y fh cv strategy scoring s).2
  = (evaluate l' y fh cv strategy scoring t).2 ∧
  heap (evaluate (Score:=Score) l y fh cv strategy scoring s).1 !! l
  = heap (evaluate (Score:=Score) l' y fh cv strategy scoring t).1 !! l'.
Proof. apply evaluate_sim. Qed.

(** Property X4.  Before it asks the splitter for its windows [evaluate]
    calls nothing on the forecaster: without a [cv] (the default), when
    [cv.get_n_splits] raises, and when it returns a negative number,
    [evaluate] raises in the state it started in, whatever [cv.split] would
    yield. *)
Theorem evaluate_raises_before_first_call l y fh strategy scoring s :
  evaluate (Score:=Score) l y fh None strategy scoring s
  = (s, Raise AttributeError) ∧
  (∀ cv e, get_n_splits cv y = Raise e →
     evaluate (Score:=Score) l y fh (Some cv) strategy scoring s
     = (s, Raise e)) ∧
  (∀ cv n, get_n_splits cv y = Ok n → (n < 0)%Z →
     evaluate (Score:=Score) l y fh (Some cv) strategy scoring s
     = (s, Raise ValueError)).
Proof.
  split_and!.
  - done.
  - intros cv e Hn. unfold evaluate, bind, lift. by rewrite Hn.
  - intros cv n Hn Hneg. unfold evaluate, bind, lift, np_empty. rewrite Hn.
    by destruct (Z.ltb_spec n 0); [|lia].
Qed.

(** Property X5.  With the default [scoring=None] and a window to evaluate, [evaluate]
    raises [TypeError] only after it has fitted the forecaster on the first
    window and asked it for a prediction: the forecaster is left fitted. *)
Theorem evaluate_without_scoring_raises_after_fit
    l y fh cv strategy n w ws s y_train y_test f f1 f2 (y_pred : Pred) :
  get_n_splits cv y = Ok (Z.of_nat n) →
  split cv y = Ok (w :: ws) →
  iloc y w.1 = Ok y_train → iloc y w.2 = Ok y_test →
  heap s !! l = Some f →
  fit_m f y_train fh = (f1, Ok tt) →
  predict_m f1 = (f2, Ok y_pred) →
  evaluate (Score:=Score) l y fh (Some cv) strategy None s
  = (mkState (<[l := f2]> (<[l := f1]> (heap s)))
       (log s ++ [EFit l y_train fh; EPredict l]),
     Raise TypeError).
Proof.
  intros Hn Hws Htr Hte Hf Hfit Hp. unfold evaluate.
  unfold bind at 1, lift. rewrite Hn.
  unfold bind at 1. rewrite np_empty_of_nat.
  unfold bind at 1. rewrite Hws. simpl.
  unfold eval_window, call_fit, call_predict, call_scoring.
  unfold bind, lift, emit, invoke, raise. simpl.
  rewrite Htr, Hte, Hf, Hfit. simpl.
  rewrite list_lookup_insert_eq by by eapply lookup_lt_Some.
  rewrite Hp. simpl. by rewrite <- app_assoc.
Qed.

(** Property X6.  [evaluate] returns one score per window when the splitter
    yields no more windows than it announced, their positions are in the
    series, the forecaster is in the store, [fit] returns on every train
    set, [predict] returns after a [fit] that returned, and the scoring
    callable returns a value that the write into the score array converts
    to [float64]. *)
Theorem evaluate_returns_when_calls_return {Value}
    l y fh cv strategy (f : list Obs → Pred → result Value)
    (to_float64 : Value → result Score) n ws s :
  get_n_splits cv y = Ok (Z.of_nat n) →
  split cv y = Ok ws →
  length ws ≤ n →
  is_Some (heap s !! l) →
  Forall (λ w : window, ∃ y_train y_test,
            iloc y w.1 = Ok y_train ∧ iloc y w.2 = Ok y_test ∧
            ∀ f, (fit_m f y_train fh).2 = Ok tt) ws →
  (∀ f y_train f1, fit_m f y_train fh = (f1, Ok tt) →
     ∃ y_pred, (predict_m f1).2 = Ok y_pred) →
  (∀ y_test y_pred, ∃ v x, f y_test y_pred = Ok v ∧ to_float64 v = Ok x) →
  ∃ s' scs,
    evaluate l y fh (Some cv) strategy (Some (float_scoring to_float64 f)) s
    = (s', Ok ((Some <$> scs) ++ replicate (n - length ws) None)) ∧
    length scs = length ws.
Proof.
  intros Hn Hsplit Hle Hl Hws Hpred Hscore.
  apply evaluate_returns; try done.
  by apply float_scoring_returns.
Qed.

Lemma mapM_snoc_inv {A V} (body : A → M St V) xs x s s' vs :
  mapM body (xs ++ [x]) s = (s', Ok vs) →
  ∃ s1 vs0 v, mapM body xs s = (s1, Ok vs0) ∧ body x s1 = (s', Ok v) ∧
              vs = vs0 ++ [v].
Proof.
  revert s vs. induction xs as [|x0 xs IH]; intros s vs; simpl.
  - intros (s1 & v & Hv & Hr)%bind_ok. unfold bind, ret in Hr.
    injection Hr as <- <-. by exists s, [], v.
  - intros (s1 & v0 & Hv0 & (s2 & vs' & Hvs & Hr)%bind_ok)%bind_ok.
    unfold ret in Hr. injection Hr as <- <-.
    apply IH in Hvs as (s3 & vs0 & v & Hxs & Hx & ->).
    exists s3, (v0 :: vs0), v.
    by rewrite (bind_step _ _ _ _ _ Hv0), (bind_step _ _ _ _ _ Hxs).
Qed.

(** Property X7.  [evaluate] works on the caller's forecaster: when it
    returns, the forecaster is in the store as the [fit] on the train set
    of the last window and the [predict] after it left it, that [fit]
    having started from the forecaster that the windows before the last
    left. *)
Theorem evaluate_leaves_forecaster_fitted_on_last_window
    l y fh cv strategy scoring ws w s s' (scores : ndarray Score) :
  split cv y = Ok (ws ++ [w]) →
  evaluate l y fh (Some cv) strategy scoring s = (s', Ok scores) →
  ∃ s1 (scs : list Score) y_train f f1,
    eval_windows l y fh scoring ws s = (s1, Ok scs) ∧
    heap s1 !! l = Some f ∧
    iloc y w.1 = Ok y_train ∧
    fit_m f y_train fh = (f1, Ok tt) ∧
    heap s' !! l = Some (predict_m f1).1.
Proof.
  intros Hws (n & ws' & scs & _ & Hws' & _ & Hm & _)%evaluate_ok_inv.
  assert (ws' = ws ++ [w]) as -> by congruence.
  apply mapM_snoc_inv in Hm as (s1 & vs0 & v & Hpre & Hw & _).
  apply eval_window_ok in Hw
    as (y_train & y_test & f & f1 & f2 & y_pred & score
        & Htr & _ & Hf & Hfit & Hp & _ & _ & ->).
  exists s1, vs0, y_train, f, f1. split_and!; [done..|]. simpl.
  rewrite Hp. simpl. apply list_lookup_insert_eq.
  rewrite length_insert. by eapply lookup_lt_Some.
Qed.

End EvaluateDependence.

(** * Further properties of [ForecastingGridSearchCV.fit] *)

Section GridCalls.

Import ForecastingGridSearchCV.

Context {F Obs FH Params Pred Score : Type}.
Context `{!Forecaster F Obs FH Params Pred}.
Variable np_mean : ndarray Score → Score.

Abbreviation St := (state F Obs FH Params Pred).
Abbreviation Ev := (event Obs FH Params Pred).
Abbreviation GS := (ForecastingGridSearchCV.t Obs Params Pred Score).
Implicit Types (s t : St) (l : loc) (y : list Obs) (fh : FH) (self : GS).

(** The body of the loop of [fit], step by step. *)
Lemma eval_params_unfold self y fh params s :
  eval_params np_mean self y fh params s
  = match heap s !! forecaster self with
    | Some f =>
        match clone_m f with
        | Ok f' =>
            let l := length (heap s) in
            let evs := log s ++ [EClone (forecaster self) l;
                                 ESetParams l params] in
            match set_params_m f' params with
            | (f'', Ok _) =>
                match evaluate l y fh (cv self) (strategy self) (scoring self)
                        (mkState (heap s ++ [f'']) evs) with
                | (s', Ok scores) => (s', Ok (np_mean scores))
                | (s', Raise e) => (s', Raise e)
                end
            | (f'', Raise e) => (mkState (heap s ++ [f'']) evs, Raise e)
            end
        | Raise e => (s, Raise e)
        end
    | None => (s, Raise ReferenceError)
    end.
Proof.
  unfold eval_params, clone, call_set_params.
  unfold bind, read, lift, alloc, emit, invoke, ret. simpl.
  destruct (heap s !! forecaster self) as [f|]; [|done].
  destruct (clone_m f) as [f'|]; [|done]. simpl.
  rewrite lookup_app_r, Nat.sub_diag by done. simpl.
  destruct (set_params_m f' params) as [f'' [[]|]]; simpl;
    rewrite insert_app_r_alt, Nat.sub_diag, <- app_assoc by done; simpl;
    [|done].
  by destruct (evaluate _ _ _ _ _ _ _) as [s' [scores|]].
Qed.

(** The mean of a configuration depends on the template and on nothing
    else in the state. *)
Lemma eval_params_sim self y fh params s t :
  heap s !! forecaster self = heap t !! forecaster self →
  (eval_params np_mean self y fh params s).2
  = (eval_params np_mean self y fh params t).2.
Proof.
  intros Heq. rewrite !eval_params_unfold, <- Heq.
  destruct (heap s !! forecaster self) as [f|]; [|done].
  destruct (clone_m f) as [f'|]; [|done]. simpl.
  destruct (set_params_m f' params) as [f'' [[]|]]; [|done].
  match goal with
  | |- (match ?a with _ => _ end).2 = (match ?b with _ => _ end).2 =>
      assert (a.2 = b.2) as Hev;
      [|destruct a as [? []], b as [? []]; simpl in *; congruence]
  end.
  apply evaluate_sim. simpl.
  by rewrite !lookup_app_r, !Nat.sub_diag by done.
Qed.

Lemma mapM_eval_params_independent self y fh grid s t f ms s' :
  heap s !! forecaster self = Some f →
  heap t !! forecaster self = Some f →
  mapM (eval_params np_mean self y fh) grid s = (s', Ok ms) →
  ∀ i params, grid !! i = Some params →
    ∃ t' m, eval_params np_mean self y fh params t = (t', Ok m) ∧
            ms !! i = Some m.
Proof.
  intros Hs Ht. revert s ms Hs.
  induction grid as [|p grid IH]; intros s ms Hs; simpl.
  - intros _ i params. by rewrite lookup_nil.
  - intros (s1 & v & Hv & (s2 & vs & Hvs & Hr)%bind_ok)%bind_ok.
    unfold ret in Hr. injection Hr as <- <-.
    intros [|i] params; simpl.
    + intros [= <-].
      pose proof (eval_params_sim self y fh p s t ltac:(congruence)) as Hsim.
      rewrite Hv in Hsim. simpl in Hsim.
      destruct (eval_params np_mean self y fh p t) as [t' r]. simpl in Hsim.
      subst r. by exists t', v.
    + apply (IH s1 vs); [|done].
      apply eval_params_preserves in Hv as [_ Hold].
      rewrite Hold by by eapply lookup_lt_Some. done.
Qed.

(** Property X8.  The configurations do not interfere: when [fit] returns
    and the splitter did not announce more splits than it yields (so that
    every mean is taken over written scores), the array of the loop has one
    cell per configuration, and the cell of a configuration holds the mean
    that the body of the loop computes for that configuration alone, from
    the state before the loop. *)
Theorem fit_configurations_do_not_interfere {XT}
    self y fh (X : option XT) s s' (r : GS) :
  fills_scores (cv self) y →
  fit np_mean self y fh X s = (s', Ok r) →
  ∃ cv_results,
    fit_cv_results np_mean self y fh s = (s', Ok cv_results) ∧
    length cv_results = length (param_grid self) ∧
    ∀ i params, param_grid self !! i = Some params →
      ∃ s1 m, eval_params np_mean self y fh params s = (s1, Ok m) ∧
              cv_results !! i = Some (Some m).
Proof.
  intros _ Hfit. unfold fit in Hfit.
  apply bind_ok in Hfit as (s0 & cv_results & Hres & Hr).
  unfold ret in Hr. injection Hr as <- _.
  exists cv_results. split; [done|].
  rewrite fit_cv_results_mapM in Hres.
  apply bind_ok in Hres as (s1 & ms & Hm & Hr).
  unfold ret in Hr. injection Hr as <- <-.
  split; [by rewrite length_fmap, (mapM_length _ _ _ _ _ Hm)|].
  intros i params Hi.
  assert (∃ f, heap s !! forecaster self = Some f) as [f Hf].
  { destruct (param_grid self) as [|p grid]; [by rewrite lookup_nil in Hi|].
    simpl in Hm. apply bind_ok in Hm as (s2 & v & Hv & _).
    apply eval_params_ok in Hv as (f & _ & _ & _ & Hf & _). by exists f. }
  destruct (mapM_eval_params_independent self y fh _ s s f ms s1 Hf Hf Hm
              i params Hi) as (t' & m & Ht' & Hmi).
  exists t', m. split; [done|]. by rewrite list_lookup_fmap, Hmi.
Qed.

(** Property X9.  The first configuration whose evaluation raises ends [fit] with that
    exception: the means computed before it are lost and the configurations
    after it are not evaluated. *)
Theorem fit_aborts_on_first_failing_configuration {XT}
    self y fh (X : option XT) pre params post s s1 s2 (ms : list Score) e :
  param_grid self = pre ++ params :: post →
  mapM (eval_params np_mean self y fh) pre s = (s1, Ok ms) →
  eval_params np_mean self y fh params s1 = (s2, Raise e) →
  fit np_mean self y fh X s = (s2, Raise e).
Proof.
  intros Hgrid Hpre Hp. unfold fit.
  apply bind_raise. rewrite fit_cv_results_mapM.
  apply bind_raise. rewrite Hgrid. by eapply mapM_raise.
Qed.

Lemma preserves_old_app s s' :
  preserves_old s s' →
  heap s' = heap s ++ drop (length (heap s)) (heap s').
Proof.
  intros [Hlen Hold].
  rewrite <- (take_drop (length (heap s)) (heap s')) at 1. f_equal.
  apply list_eq. intros i.
  destruct (decide (i < length (heap s))) as [Hi|Hi].
  - rewrite lookup_take_lt by done. by apply Hold.
  - rewrite !lookup_ge_None_2; [done | lia |].
    rewrite length_take. lia.
Qed.

Lemma eval_params_length self y fh params s s' (m : Score) :
  eval_params np_mean self y fh params s = (s', Ok m) →
  length (heap s') = length (heap s) + 1.
Proof.
  intros (f & f' & f'' & scores & _ & _ & _ & Hev & _)%eval_params_ok.
  apply evaluate_touches in Hev as [Hlen _]. simpl in Hlen.
  by rewrite Hlen, length_app.
Qed.

(** Property X10.  A run of [fit] that returns leaves one new object per configuration in
    the store, after the objects that were there, which are as they were:
    the clones stay in the store, none is reused. *)
Theorem fit_appends_one_clone_per_configuration {XT}
    self y fh (X : option XT) s s' (r : GS) :
  fit np_mean self y fh X s = (s', Ok r) →
  ∃ clones, heap s' = heap s ++ clones ∧
            length clones = length (param_grid self).
Proof.
  intros Hfit.
  destruct (fit_preserves np_mean _ _ _ _ _ _ _ Hfit) as [Hold _].
  exists (drop (length (heap s)) (heap s')).
  split; [by apply preserves_old_app|].
  unfold fit in Hfit. apply bind_ok in Hfit as (s1 & a & Ha & Hr).
  unfold ret in Hr. injection Hr as <- _.
  rewrite fit_cv_results_mapM in Ha.
  apply bind_ok in Ha as (s2 & ms & Hm & Hr).
  unfold ret in Hr. injection Hr as <- _.
  eapply (mapM_count (λ s, length (heap s)) 1) in Hm;
    [|intros p t t' m; apply eval_params_length].
  simpl in Hm. rewrite length_drop. lia.
Qed.

(** Property X12.  With an empty grid [fit] returns [self] at once: nothing is cloned or
    called, and [cv] is not even looked at. *)
Theorem fit_on_empty_grid_does_nothing {XT} self y fh (X : option XT) s :
  param_grid self = [] →
  fit np_mean self y fh X s = (s, Ok self).
Proof.
  intros Hgrid. unfold fit, fit_cv_results, bind, lift. by rewrite Hgrid.
Qed.

Lemma forallb_on_clone_mono n n' template (evs : list Ev) :
  n ≤ n' → forallb (on_clone n' template) evs = true →
  forallb (on_clone n template) evs = true.
Proof.
  intros Hn. rewrite !forallb_forall. intros Hall e He.
  specialize (Hall e He). destruct e; simpl in *; try done.
  - apply andb_true_iff in Hall as [-> Hdst]. simpl.
    apply Nat.leb_le in Hdst. apply Nat.leb_le. lia.
  - apply Nat.leb_le in Hall. apply Nat.leb_le. lia.
  - apply Nat.leb_le in Hall. apply Nat.leb_le. lia.
  - apply Nat.leb_le in Hall. apply Nat.leb_le. lia.
Qed.

(** The calls of the body of the loop are on its clone. *)
Lemma eval_params_on_clone self y fh params s s' (r : result Score) :
  eval_params np_mean self y fh params s = (s', r) →
  ∃ evs, log s' = log s ++ evs ∧
         forallb (on_clone (length (heap s)) (forecaster self)) evs = true.
Proof.
  rewrite eval_params_unfold.
  destruct (heap s !! forecaster self) as [f|];
    [|intros [= <- _]; exists []; by rewrite app_nil_r].
  destruct (clone_m f) as [f'|];
    [|intros [= <- _]; exists []; by rewrite app_nil_r].
  simpl.
  assert (forallb (on_clone (length (heap s)) (forecaster self))
            [EClone (Obs:=Obs) (FH:=FH) (Pred:=Pred) (forecaster self)
               (length (heap s));
             ESetParams (length (heap s)) params] = true) as Hhead.
  { simpl. by rewrite Nat.eqb_refl, Nat.leb_refl. }
  destruct (set_params_m f' params) as [f'' [[]|]];
    [|intros [= <- _]; by eexists].
  destruct (evaluate _ _ _ _ _ _ _) as [s1 r1] eqn:Hev.
  apply evaluate_protocol in Hev as (evs & Hlog & Hrun & _). simpl in Hlog.
  intros Hr.
  assert (s' = s1) as -> by (destruct r1; by injection Hr).
  exists ([EClone (forecaster self) (length (heap s));
           ESetParams (length (heap s)) params] ++ evs).
  split; [by rewrite Hlog, <- app_assoc|].
  rewrite forallb_app, Hhead. simpl.
  by eapply protocol_run_on_clone.
Qed.

Lemma on_clone_n_updates n template (evs : list Ev) :
  forallb (on_clone n template) evs = true → n_updates evs = 0.
Proof.
  induction evs as [|e evs IH]; simpl; [done|].
  intros [He Hevs]%andb_true_iff. specialize (IH Hevs).
  unfold n_updates in *. by destruct e.
Qed.

(** Property X11.  Whatever its outcome, [fit] calls [set_params], [fit]
    and [predict] on objects that it cloned from the template and on no
    object that was in the store before, the template included; it calls
    [update] on none. *)
Theorem fit_calls_only_its_clones {XT} self y fh (X : option XT) s :
  ∃ evs,
    log (fit np_mean self y fh X s).1 = log s ++ evs ∧
    forallb (on_clone (length (heap s)) (forecaster self)) evs = true ∧
    n_updates evs = 0.
Proof.
  cut (∃ evs,
         log (fit np_mean self y fh X s).1 = log s ++ evs ∧
         forallb (on_clone (length (heap s)) (forecaster self)) evs = true).
  { intros (evs & Hlog & Hall). exists evs. split_and!; [done | done |].
    by eapply on_clone_n_updates. }
  assert (∀ s' (r : result (ndarray Score)),
            fit_cv_results np_mean self y fh s = (s', r) →
            ∃ evs, log s' = log s ++ evs ∧
              forallb (on_clone (length (heap s)) (forecaster self)) evs
              = true) as Hloop.
  { intros s' r. unfold fit_cv_results, bind at 1, lift.
    rewrite np_empty_of_nat, grid_loop_enum. intros Hloop.
    set (P := λ evs : list Ev,
                forallb (on_clone (length (heap s)) (forecaster self)) evs
                = true).
    assert (∀ evs evs', P evs → P evs' → P (evs ++ evs')) as Happ.
    { unfold P. intros evs evs' Hok Hany. by rewrite forallb_app, Hok, Hany. }
    assert (∀ p t t' (r' : result Score),
              length (heap s) ≤ length (heap t) →
              eval_params np_mean self y fh p t = (t', r') →
              length (heap s) ≤ length (heap t') ∧
              ∃ evs, log t' = log t ++ evs ∧ P evs ∧
                     (∀ v, r' = Ok v → P evs)) as Hbody.
    { intros p t t' r' Hinv Hp. split.
      - apply eval_params_preserves in Hp as [Hlen _]. lia.
      - apply eval_params_on_clone in Hp as (evs & Hlog & Hall).
        exists evs. unfold P. split_and!; [done | | intros _ _];
          by eapply forallb_on_clone_mono. }
    destruct (enum_loop_events P P
                (λ t, length (heap s) ≤ length (heap t))
                _ _ _ _ _ _ _ eq_refl (λ _ H, H) Happ Happ Hbody
                (Nat.le_refl _) Hloop) as (_ & evs & Hlog & Hall & _).
    by exists evs. }
  unfold fit, bind.
  destruct (fit_cv_results np_mean self y fh s) as [s' [a|e]] eqn:Hres;
    simpl; by eapply Hloop.
Qed.

End GridCalls.

(** ** The further properties on the examples *)

Section MoreExamples.

Import Scenario Scenario2.
Import MeanForecaster (abs_error, mean).

(** The mean forecaster scores the same at location 1 of a store with
    another object and a log as at location 0 of a store of its own. *)
Lemma evaluate_depends_on_forecaster_only_witness :
  (evaluate 0 series 1 (Some (fixed_cv 2 [w0; w1])) "refit" (Some abs_error)
     store).2
  = (evaluate 1 series 1 (Some (fixed_cv 2 [w0; w1])) "refit"
       (Some abs_error) busy_store).2.
Proof.
  refine (proj1 (evaluate_depends_on_forecaster_only 0 1 series 1
    (Some (fixed_cv 2 [w0; w1])) "refit" (Some abs_error) store busy_store
    _)).
  reflexivity.
Defined.

(** A splitter that announces -1 splits. *)
Lemma evaluate_raises_before_first_call_witness :
  evaluate (Score:=Z) 0 series 1 (Some (fixed_cv (-1) [w0; w1])) "refit"
    (Some abs_error) store
  = (store, Raise ValueError).
Proof.
  refine (proj2 (proj2 (evaluate_raises_before_first_call
    0 series 1 "refit" (Some abs_error) store))
    (fixed_cv (-1) [w0; w1]) (-1)%Z _ _).
  - reflexivity.
  - lia.
Defined.

Lemma evaluate_without_scoring_witness :
  evaluate (Score:=Z) 0 series 1 (Some (fixed_cv 2 [w0; w1])) "refit" None
    store
  = (mkState [MeanForecaster.mk 0 (Some [10; 0]%Z)]
       [EFit 0 [10; 0]%Z 1; EPredict 0],
     Raise TypeError).
Proof.
  refine (evaluate_without_scoring_raises_after_fit 0 series 1
    (fixed_cv 2 [w0; w1]) "refit" 2 w0 [w1] store [10; 0]%Z [0%Z]
    (MeanForecaster.mk 0 None) (MeanForecaster.mk 0 (Some [10; 0]%Z))
    (MeanForecaster.mk 0 (Some [10; 0]%Z)) 5%Z _ _ _ _ _ _ _);
    reflexivity.
Defined.

Lemma evaluate_returns_witness :
  ∃ s' scs,
    evaluate 0 series 1 (Some (fixed_cv 3 [w0; w1])) "refit"
      (Some (float_scoring to_float64 abs_error)) store
    = (s', Ok ((Some <$> scs) ++ replicate (3 - length [w0; w1]) None)) ∧
    length scs = length [w0; w1].
Proof.
  refine (evaluate_returns_when_calls_return 0 series 1
    (fixed_cv 3 [w0; w1]) "refit" abs_error to_float64 3 [w0; w1] store
    _ _ _ _ _ _ _).
  - reflexivity.
  - reflexivity.
  - simpl; lia.
  - by eexists.
  - repeat constructor.
    + exists [10; 0]%Z, [0%Z]. split_and!; [reflexivity..|]. intros f. reflexivity.
    + exists [0; 0]%Z, [5%Z]. split_and!; [reflexivity..|]. intros f. reflexivity.
  - intros f y_train f1 Hfit. destruct y_train as [|v y_train].
    + discriminate Hfit.
    + injection Hfit as <-. eexists. reflexivity.
  - intros y_test y_pred. eexists _, _. split; reflexivity.
Defined.

Lemma evaluate_leaves_forecaster_fitted_witness :
  ∃ s1 (scs : list Z) y_train f f1,
    eval_windows 0 series 1 (Some abs_error) [w0] store = (s1, Ok scs) ∧
    heap s1 !! 0 = Some f ∧
    iloc series w1.1 = Ok y_train ∧
    fit_m f y_train 1 = (f1, Ok tt) ∧
    heap (evaluate 0 series 1 (Some (fixed_cv 2 [w0; w1])) "refit"
            (Some abs_error) store).1 !! 0
    = Some (predict_m f1).1.
Proof.
  refine (evaluate_leaves_forecaster_fitted_on_last_window 0 series 1
    (fixed_cv 2 [w0; w1]) "refit" (Some abs_error) [w0] w1 store _
    [Some 5%Z; Some 5%Z] _ _).
  - reflexivity.
  - vm_compute; reflexivity.
Defined.

Lemma tie_grid_fills_scores :
  fills_scores (ForecastingGridSearchCV.cv tie_grid) tie_series.
Proof. intros c n ws [= <-] [= <-] [= <-]. simpl. lia. Qed.

(** The configurations of the tie score alone what they score in the
    grid. *)
Lemma fit_configurations_do_not_interfere_witness :
  ∃ cv_results,
    ForecastingGridSearchCV.fit_cv_results mean tie_grid tie_series 1 store
    = ((ForecastingGridSearchCV.fit mean tie_grid tie_series 1 (@None unit)
          store).1, Ok cv_results) ∧
    length cv_results
    = length (ForecastingGridSearchCV.param_grid tie_grid) ∧
    ∀ i params,
      ForecastingGridSearchCV.param_grid tie_grid !! i = Some params →
      ∃ s1 m,
        ForecastingGridSearchCV.eval_params mean tie_grid tie_series 1
          params store = (s1, Ok m) ∧
        cv_results !! i = Some (Some m).
Proof.
  refine (fit_configurations_do_not_interfere mean tie_grid tie_series 1
    (@None unit) store _ tie_grid tie_grid_fills_scores _).
  vm_compute; reflexivity.
Defined.

(** The second configuration of [bad_grid] names a parameter that
    [set_params] refuses. *)
Lemma fit_aborts_on_failing_configuration_witness :
  (ForecastingGridSearchCV.fit mean bad_grid series 1 (@None unit) store).2
  = Raise ValueError.
Proof.
  refine (f_equal snd (fit_aborts_on_first_failing_configuration mean
    bad_grid series 1 (@None unit) [[("offset", 1%Z)]] [("trend", 1%Z)]
    [[("offset", 2%Z)]] store
    (ForecastingGridSearchCV.eval_params mean bad_grid series 1
       [("offset", 1%Z)] store).1
    _ [5%Z] ValueError _ _ _)).
  - reflexivity.
  - vm_compute; reflexivity.
  - vm_compute; reflexivity.
Defined.

Lemma fit_appends_one_clone_witness :
  ∃ clones,
    heap (ForecastingGridSearchCV.fit mean tie_grid tie_series 1 (@None unit)
            store).1 = heap store ++ clones ∧
    length clones = length (ForecastingGridSearchCV.param_grid tie_grid).
Proof.
  refine (fit_appends_one_clone_per_configuration mean tie_grid tie_series 1
    (@None unit) store _ tie_grid _).
  vm_compute; reflexivity.
Defined.

Lemma fit_on_empty_grid_witness :
  ForecastingGridSearchCV.fit mean empty_grid series 1 (@None unit) store
  = (store, Ok empty_grid).
Proof.
  refine (fit_on_empty_grid_does_nothing mean empty_grid series 1
    (@None unit) store _).
  reflexivity.
Defined.

End MoreExamples.

(** * Running twice *)

Section Repeat.

Import ForecastingGridSearchCV.

Context {F Obs FH Params Pred Score : Type}.
Context `{!Forecaster F Obs FH Params Pred}.
Variable np_mean : ndarray Score → Score.

Abbreviation St := (state F Obs FH Params Pred).
Abbreviation GS := (ForecastingGridSearchCV.t Obs Params Pred Score).
Implicit Types (s t : St) (l : loc) (y : list Obs) (fh : FH) (self : GS)
  (scoring : option (Scoring Obs Pred Score)) (ws : list window).

Lemma refit_equiv_refl (f : F) : refit_equiv f f.
Proof. by intros y_train fh. Qed.

(** From two states of the forecaster that [fit] does not tell apart, one
    iteration has the same outcome, and leaves the same forecaster when it
    returns. *)
Lemma eval_window_refit_sim l y fh scoring w s t f g :
  heap s !! l = Some f → heap t !! l = Some g → refit_equiv f g →
  (eval_window (Score:=Score) l y fh scoring w s).2
  = (eval_window l y fh scoring w t).2 ∧
  (∀ v, (eval_window (Score:=Score) l y fh scoring w s).2 = Ok v →
     heap (eval_window (Score:=Score) l y fh scoring w s).1 !! l
     = heap (eval_window (Score:=Score) l y fh scoring w t).1 !! l).
Proof.
  intros Hf Hg Hfg.
  unfold eval_window, call_fit, call_predict, call_scoring.
  unfold bind, lift, emit, invoke, raise. simpl.
  destruct (iloc y w.1) as [y_train|]; [|done].
  destruct (iloc y w.2) as [y_test|]; [|done].
  rewrite Hf, Hg.
  pose proof (lookup_lt_Some _ _ _ Hf) as Hl.
  pose proof (lookup_lt_Some _ _ _ Hg) as Hl'.
  destruct (Hfg y_train fh) as [Hr Hst].
  destruct (fit_m f y_train fh) as [f1 r1], (fit_m g y_train fh) as [g1 r2].
  simpl in *. subst r2. destruct r1 as [[]|]; [|done].
  rewrite <- (Hst eq_refl). simpl.
  rewrite !list_lookup_insert_eq by done.
  destruct (predict_m f1) as [f2 [y_pred|]]; simpl; [|done].
  destruct scoring as [score|]; simpl; [|done].
  destruct (score y_test y_pred); simpl; [|done].
  split; [done|]. intros _ _.
  by rewrite !list_lookup_insert_eq by by rewrite length_insert.
Qed.

Lemma evaluate_refit_sim l y fh cv strategy scoring s t f g :
  heap s !! l = Some f → heap t !! l = Some g → refit_equiv f g →
  (evaluate (Score:=Score) l y fh cv strategy scoring s).2
  = (evaluate l y fh cv strategy scoring t).2.
Proof.
  intros Hf Hg Hfg. destruct cv as [cv|]; [|done].
  rewrite !evaluate_unfold.
  destruct (get_n_splits cv y); [|done].
  destruct (np_empty _) as [arr|]; [|done].
  destruct (split cv y) as [[|w ws]|]; [done | | done].
  simpl. unfold bind at 1 3.
  destruct (eval_window_refit_sim l y fh scoring w s t f g Hf Hg Hfg)
    as [Hr Hst].
  destruct (eval_window l y fh scoring w s) as [s1 r1],
           (eval_window l y fh scoring w t) as [t1 r2].
  simpl in *. subst r2. destruct r1 as [v|]; [|done].
  specialize (Hst v eq_refl).
  unfold bind, lift. destruct (setitem arr 0 v) as [arr'|]; [|done].
  apply (enum_loop_sim (λ s t, heap s !! l = heap t !! l)); [|done].
  intros w' s2 t2 H2. by apply eval_window_sim.
Qed.

Lemma eval_windows_refit_end l y fh scoring ws s s' f (scs : list Score) :
  fit_resets →
  heap s !! l = Some f →
  eval_windows l y fh scoring ws s = (s', Ok scs) →
  ∃ f', heap s' !! l = Some f' ∧ refit_equiv f' f.
Proof.
  intros Hres. unfold eval_windows. revert s scs.
  cut (∀ s g (scs : list Score),
         heap s !! l = Some g → refit_equiv g f →
         mapM (eval_window l y fh scoring) ws s = (s', Ok scs) →
         ∃ f', heap s' !! l = Some f' ∧ refit_equiv f' f).
  { intros Hcut s scs Hf. apply (Hcut s f scs Hf (refit_equiv_refl f)). }
  induction ws as [|w ws IH]; intros s g scs Hg Hgf; simpl.
  - unfold ret. intros [= <- _]. by exists g.
  - intros (s1 & v & Hv & (s2 & vs' & Hvs & Hr)%bind_ok)%bind_ok.
    unfold ret in Hr. injection Hr as <- _.
    destruct (eval_window_refit l y fh scoring w s s g g s1 v Hres Hg Hg
                (refit_equiv_refl g) Hv) as [_ (g' & Hg' & Hg'g)].
    apply (IH s1 g' vs' Hg'); [|done].
    by eapply refit_equiv_trans.
Qed.

(** Property X13.  When [fit] discards what earlier calls left in the
    forecaster, [evaluate] can be run again on the forecaster it has used:
    the second run returns the scores of the first. *)
Theorem evaluate_again_returns_same_scores
    l y fh cv strategy scoring s s1 (scores : ndarray Score) :
  fit_resets →
  evaluate l y fh cv strategy scoring s = (s1, Ok scores) →
  (evaluate l y fh cv strategy scoring s1).2 = Ok scores.
Proof.
  intros Hres Hev.
  destruct cv as [cv|]; [|done].
  pose proof Hev as (n & ws & scs & Hn & Hws & Hle & Hm & ->)%evaluate_ok_inv.
  destruct (heap s !! l) as [f|] eqn:Hf.
  - destruct (eval_windows_refit_end l y fh scoring ws s s1 f scs Hres Hf Hm)
      as (f' & Hf' & Hf'f).
    rewrite (evaluate_refit_sim l y fh (Some cv) strategy scoring s1 s f' f
               Hf' Hf Hf'f).
    by rewrite Hev.
  - destruct ws as [|w ws].
    + unfold eval_windows in Hm. simpl in Hm. unfold ret in Hm.
      injection Hm as <- _. by rewrite Hev.
    + destruct (eval_windows_forecaster l y fh scoring (w :: ws) s s1 scs Hm
                  ltac:(done)) as [f Hf'].
      congruence.
Qed.

(** The body of the loop of [fit] leaves the template as it was. *)
Lemma eval_params_template self y fh params s :
  heap (eval_params np_mean self y fh params s).1 !! forecaster self
  = heap s !! forecaster self.
Proof.
  destruct (heap s !! forecaster self) as [f|] eqn:Hf.
  - destruct (eval_params np_mean self y fh params s) as [s' r] eqn:Hp.
    apply eval_params_preserves in Hp as [_ Hold]. simpl.
    rewrite Hold by by eapply lookup_lt_Some. done.
  - rewrite eval_params_unfold, Hf. done.
Qed.

Lemma fit_cv_results_sim self y fh s t :
  heap s !! forecaster self = heap t !! forecaster self →
  (fit_cv_results np_mean self y fh s).2
  = (fit_cv_results np_mean self y fh t).2.
Proof.
  intros Heq. unfold fit_cv_results, bind, lift.
  rewrite np_empty_of_nat, !grid_loop_enum.
  apply (enum_loop_sim
           (λ s t, heap s !! forecaster self = heap t !! forecaster self));
    [|done].
  intros p s1 t1 H1. split; [by apply eval_params_sim|].
  by rewrite !eval_params_template.
Qed.

Lemma fit_outcome {XT} self y fh (X : option XT) s :
  (fit np_mean self y fh X s).2
  = match (fit_cv_results np_mean self y fh s).2 with
    | Ok _ => Ok self
    | Raise e => Raise e
    end.
Proof.
  unfold fit, bind, ret.
  by destruct (fit_cv_results np_mean self y fh s) as [s' [a|e]].
Qed.

Lemma fit_template {XT} self y fh (X : option XT) s :
  heap (fit np_mean self y fh X s).1 !! forecaster self
  = heap s !! forecaster self.
Proof.
  destruct (fit np_mean self y fh X s) as [s' r] eqn:Hfit. simpl.
  destruct (heap s !! forecaster self) as [f|] eqn:Hf.
  - destruct (fit_preserves np_mean _ _ _ _ _ _ _ Hfit) as [[_ Hold] _].
    rewrite <- Hf. apply Hold. by eapply lookup_lt_Some.
  - pose proof (fit_dangling np_mean self y fh X s Hf) as Hs.
    rewrite Hfit in Hs. simpl in Hs. by rewrite Hs.
Qed.

(** Property X14.  When the splitter does not announce more splits than it
    yields (so that every mean is taken over written scores), the outcome
    of [fit] and of its loop, the means or the exception, depends on the
    template and on nothing else in the state: not on the other objects of
    the store, not on the calls made before. *)
Theorem fit_cv_results_depend_on_template_only {XT}
    self y fh (X : option XT) s t :
  fills_scores (cv self) y →
  heap s !! forecaster self = heap t !! forecaster self →
  (fit_cv_results np_mean self y fh s).2
  = (fit_cv_results np_mean self y fh t).2 ∧
  (fit np_mean self y fh X s).2 = (fit np_mean self y fh X t).2.
Proof.
  intros _ Heq.
  pose proof (fit_cv_results_sim self y fh s t Heq) as Hres.
  split; [done|]. by rewrite !fit_outcome, Hres.
Qed.

(** Property X15.  [fit] can be run again: when the splitter does not
    announce more splits than it yields, a second run of [fit] after a
    first, whatever the outcome of the first, ends as the first did, its
    loop with the same means or the same exception, whatever the forecaster
    does in [fit]. *)
Theorem fit_again_computes_same_results {XT} self y fh (X : option XT) s :
  fills_scores (cv self) y →
  (fit_cv_results np_mean self y fh (fit np_mean self y fh X s).1).2
  = (fit_cv_results np_mean self y fh s).2 ∧
  (fit np_mean self y fh X (fit np_mean self y fh X s).1).2
  = (fit np_mean self y fh X s).2.
Proof.
  intros _.
  pose proof (fit_cv_results_sim self y fh _ s (fit_template self y fh X s))
    as Hres.
  split; [done|]. by rewrite !fit_outcome, Hres.
Qed.

End Repeat.

Section RepeatExamples.

Import Scenario Scenario2.
Import MeanForecaster (abs_error, mean).

Lemma evaluate_again_witness :
  (evaluate 0 series 1 (Some (fixed_cv 2 [w0; w1])) "refit" (Some abs_error)
     (evaluate (Score:=Z) 0 series 1 (Some (fixed_cv 2 [w0; w1])) "refit"
        (Some abs_error) store).1).2
  = Ok [Some 5%Z; Some 5%Z].
Proof.
  refine (evaluate_again_returns_same_scores 0 series 1
    (Some (fixed_cv 2 [w0; w1])) "refit" (Some abs_error) store _
    [Some 5%Z; Some 5%Z] mean_forecaster_fit_resets _).
  vm_compute; reflexivity.
Defined.

(** With a warm start the second run scores differently: the hypothesis on
    [fit] is needed. *)
Lemma warm_start_evaluate_again_differs :
  (evaluate 0 series 1 (Some (fixed_cv 2 [w0; w1])) "refit" (Some abs_error)
     warm_store).2 = Ok [Some 5%Z; Some 3%Z] ∧
  (evaluate 0 series 1 (Some (fixed_cv 2 [w0; w1])) "refit" (Some abs_error)
     (evaluate (Score:=Z) 0 series 1 (Some (fixed_cv 2 [w0; w1])) "refit"
        (Some abs_error) warm_store).1).2 = Ok [Some 3%Z; Some 3%Z].
Proof. split; vm_compute; reflexivity. Qed.

Lemma fit_cv_results_depend_on_template_witness :
  (ForecastingGridSearchCV.fit_cv_results mean tie_grid tie_series 1 store).2
  = (ForecastingGridSearchCV.fit_cv_results mean tie_grid tie_series 1
       (mkState (heap store ++ [MeanForecaster.mk 3 (Some [1%Z])])
          [EPredict 1])).2.
Proof.
  refine (proj1 (fit_cv_results_depend_on_template_only mean tie_grid
    tie_series 1 (@None unit) store _ tie_grid_fills_scores _)).
  reflexivity.
Defined.

Lemma fit_again_witness :
  (ForecastingGridSearchCV.fit_cv_results mean tie_grid tie_series 1
     (ForecastingGridSearchCV.fit mean tie_grid tie_series 1 (@None unit)
        store).1).2
  = (ForecastingGridSearchCV.fit_cv_results mean tie_grid tie_series 1
       store).2.
Proof.
  refine (proj1 (fit_again_computes_same_results mean tie_grid tie_series 1
    (@None unit) store tie_grid_fills_scores)).
Defined.

End RepeatExamples.
